(** * Signaling relay: room table, router, presence and idle reaper

    A shallow embedding of the socket.io signaling server (the variant with
    room capacity, validation and periodic cleanup) and the properties of
    its room/session state machine.

    Conventions of the embedding
    - The strings the handlers run on are sequences of code units below
      256 (Latin-1), with [trim] and [toLowerCase] as ECMAScript has them on
      that range ([JsString]).  The two builtins on code points beyond it,
      where lower-casing depends on the context, are in [Unicode]; [units]
      relates the two.
    - A handler body runs on a message object ([payload]).  What a client
      sends before the parameter list destructures it is a [request]:
      [serve] runs the handler, or ends the process when the destructuring
      throws.
    - Instants ([new Date()], ISO timestamps) are milliseconds as [Z]; a
      handler reads the clock once, its argument [now].
    - [Map] objects keyed by strings are [gmap string _]; a [Set] of socket
      ids is the list of its elements in insertion order, without
      duplicates; [userProfiles], which the reaper iterates in insertion
      order, is an association list.
    - Every emit is recorded as an [action]: the address it was sent to and
      the event with its payload.  Console output is not modelled. *)

From Stdlib Require Import ZArith Ascii String List Lia.
From stdpp Require Import base option list gmap fin_maps strings.

Local Open Scope string_scope.
Local Open Scope Z_scope.
Local Open Scope list_scope.

(** ** JavaScript strings *)

Module JsString.

Definition code (c : ascii) : N := N_of_ascii c.

(** WhiteSpace and LineTerminator code points below 256: TAB, LF, VT, FF,
    CR, SP and NBSP. *)
Definition isWhiteSpace (c : ascii) : bool :=
  let n := code c in
  (((9 <=? n) && (n <=? 13)) || (n =? 32) || (n =? 160))%N.

(** Upper-case letters below 256: A-Z and the Latin-1 capitals U+00C0 to
    U+00DE, the multiplication sign U+00D7 apart. *)
Definition isUpper (c : ascii) : bool :=
  let n := code c in
  (((65 <=? n) && (n <=? 90))
   || ((192 <=? n) && (n <=? 222) && negb (n =? 215)))%N.

Definition lowerChar (c : ascii) : ascii :=
  if isUpper c then ascii_of_N (code c + 32) else c.

Fixpoint toLowerCase (s : string) : string :=
  match s with
  | EmptyString => EmptyString
  | String c s' => String (lowerChar c) (toLowerCase s')
  end.

Fixpoint trimStart (s : string) : string :=
  match s with
  | EmptyString => EmptyString
  | String c s' => if isWhiteSpace c then trimStart s' else s
  end.

Fixpoint trimEnd (s : string) : string :=
  match s with
  | EmptyString => EmptyString
  | String c s' =>
      match trimEnd s' with
      | EmptyString => if isWhiteSpace c then EmptyString else String c EmptyString
      | t => String c t
      end
  end.

Definition trim (s : string) : string := trimEnd (trimStart s).

(** A string made of white space only. *)
Fixpoint blank (s : string) : bool :=
  match s with
  | EmptyString => true
  | String c s' => isWhiteSpace c && blank s'
  end.

(** Two code units that are the same letter, possibly in different case. *)
Definition caseVariant (a b : ascii) : Prop :=
  a = b
  \/ (isUpper a = true /\ code b = (code a + 32)%N)
  \/ (isUpper b = true /\ code a = (code b + 32)%N).

(** Two strings that are equal up to the case of their letters. *)
Inductive sameUpToCase : string -> string -> Prop :=
| sameUpToCase_nil : sameUpToCase EmptyString EmptyString
| sameUpToCase_cons a b s t :
    caseVariant a b -> sameUpToCase s t ->
    sameUpToCase (String a s) (String b t).

(** Raw room ids that differ only by letter case or by surrounding
    white space. *)
Definition sameUpToCaseAndPadding (s1 s2 : string) : Prop :=
  exists l1 c1 r1 l2 c2 r2,
    s1 = (l1 ++ c1 ++ r1)%string /\ s2 = (l2 ++ c2 ++ r2)%string /\
    blank l1 = true /\ blank r1 = true /\
    blank l2 = true /\ blank r2 = true /\
    sameUpToCase c1 c2.

End JsString.

Import JsString.

(** ** JavaScript values carried by inbound messages *)

(** Offers, answers and candidates are opaque to the server: an object is
    represented by its serialised content. *)
Inductive value :=
| VUndefined
| VNull
| VBool (b : bool)
| VNum (n : Z)
| VStr (s : string)
| VObj (blob : string).

#[global] Instance value_eq_dec : EqDecision value.
Proof. solve_decision. Defined.

Definition truthy (v : value) : bool :=
  match v with
  | VUndefined | VNull => false
  | VBool b => b
  | VNum n => negb (n =? 0)
  | VStr s => negb (String.eqb s EmptyString)
  | VObj _ => true
  end.

(** An inbound message that the parameter list could destructure: an
    object; destructuring [{ k }] reads property [k], which is [undefined]
    when the sender left it out.  An event sent with no argument, or with
    [null], never gets this far: see [argument] and [serve]. *)
Abbreviation payload := (gmap string value).

Definition field (k : string) (msg : payload) : value :=
  default VUndefined (msg !! k).

(** ** Server state *)

Record profile := {
  connectedAt : Z;
  lastActivity : Z;
  currentRoom : option string;
  activity : option value
}.

Record state := {
  rooms : gmap string (list string);
  socketToRoom : gmap string string;
  userProfiles : list (string * profile)
}.

Definition init : state :=
  {| rooms := ∅; socketToRoom := ∅; userProfiles := [] |}.

(** *** [Set] of socket ids, in insertion order *)

Definition set_has (x : string) (s : list string) : bool :=
  bool_decide (x ∈ s).

Definition set_add (x : string) (s : list string) : list string :=
  if set_has x s then s else s ++ [x].

Definition set_delete (x : string) (s : list string) : list string :=
  filter (λ y, y ≠ x) s.

(** *** [userProfiles], a [Map] in insertion order *)

Fixpoint profiles_get (sid : string) (ps : list (string * profile)) : option profile :=
  match ps with
  | [] => None
  | (k, p) :: ps' => if decide (k = sid) then Some p else profiles_get sid ps'
  end.

Fixpoint profiles_replace (sid : string) (p : profile) (ps : list (string * profile))
  : list (string * profile) :=
  match ps with
  | [] => []
  | (k, q) :: ps' =>
      if decide (k = sid) then (k, p) :: ps' else (k, q) :: profiles_replace sid p ps'
  end.

Definition profiles_set (sid : string) (p : profile) (ps : list (string * profile))
  : list (string * profile) :=
  match profiles_get sid ps with
  | Some _ => profiles_replace sid p ps
  | None => ps ++ [(sid, p)]
  end.

Definition profiles_delete (sid : string) (ps : list (string * profile))
  : list (string * profile) :=
  filter (λ e, e.1 ≠ sid) ps.

(** [userProfiles.delete(sid)] on the state. *)
Definition unregister (st : state) (sid : string) : state :=
  {| rooms := rooms st; socketToRoom := socketToRoom st;
     userProfiles := profiles_delete sid (userProfiles st) |}.

(** ** Outbound events *)

Record roomInfo := {
  roomId : string;
  users : list (string * option profile);
  userCount : nat
}.

Inductive event :=
| EvError (message : string)
| EvRoomJoined (info : option roomInfo)
| EvUserJoined (socketId : string) (room : string) (info : option roomInfo)
| EvUserLeft (socketId : string) (room : string) (count : nat)
| EvUserDisconnected (socketId : string) (room : string) (reason : string) (timestamp : Z)
| EvIncomingCall (from : string) (offer : value) (timestamp : Z)
| EvCallAccepted (from : string) (answer : value) (timestamp : Z)
| EvIceCandidate (candidate : value) (from : string)
| EvCallEnded (from : string) (timestamp : Z)
| EvPong.

(** The three ways the server addresses an emit: [socket.emit] (this
    connection), [io.to(r).emit] (socket.io room [r]) and
    [socket.to(r).emit] (room [r], the sending connection left out). *)
Inductive target :=
| ToSocket (sid : string)
| IoTo (room : string)
| SocketTo (sender : string) (room : value).

Inductive action := Emit (tgt : target) (ev : event).

(** socket.io puts every connection in the room named by its own id, which
    is how the server addresses a peer.  [receives who a]: the emit [a] is
    addressed to connection [who], that is to the room of that name (and,
    for [socket.to], [who] is not the sender).  Rooms a connection enters
    through [socket.join] are not tracked, so [receives] is exact for an
    address that is a connection id and says nothing of the members of a
    room key; the properties below use it with connection ids only, and
    state what concerns a room key on the address itself. *)
Definition receives (who : string) (a : action) : bool :=
  match a with
  | Emit (ToSocket sid) _ => bool_decide (sid = who)
  | Emit (IoTo room) _ => bool_decide (room = who)
  | Emit (SocketTo sender (VStr room)) _ =>
      bool_decide (room = who) && negb (bool_decide (sender = who))
  | Emit (SocketTo _ _) _ => false
  end.

(** ** Utility functions of the server *)

Definition getRoomInfo (st : state) (rid : string) : option roomInfo :=
  match rooms st !! rid with
  | None => None
  | Some room =>
      Some {| roomId := rid;
              users := map (λ sid, (sid, profiles_get sid (userProfiles st))) room;
              userCount := length room |}
  end.

Definition cleanupRoom (st : state) (rid : string) : state * bool :=
  match rooms st !! rid with
  | Some room =>
      if (length room =? 0)%nat
      then ({| rooms := delete rid (rooms st);
               socketToRoom := socketToRoom st;
               userProfiles := userProfiles st |}, true)
      else (st, false)
  | None => (st, false)
  end.

(** Returns the new state, the [user:left] emits and the room that was left
    ([None] for JavaScript's [null]). *)
Definition leaveCurrentRoom (st : state) (sid : string)
  : state * list action * option string :=
  match socketToRoom st !! sid with
  | None => (st, [], None)
  | Some current =>
      if String.eqb current EmptyString then (st, [], None)
      else
        let '(st1, acts) :=
          match rooms st !! current with
          | Some room =>
              let room' := set_delete sid room in
              let st' := {| rooms := <[current := room']> (rooms st);
                            socketToRoom := socketToRoom st;
                            userProfiles := userProfiles st |} in
              let acts :=
                map (λ other, Emit (IoTo other)
                                (EvUserLeft sid current (length room'))) room' in
              ((cleanupRoom st' current).1, acts)
          | None => (st, [])
          end in
        ({| rooms := rooms st1;
            socketToRoom := delete sid (socketToRoom st1);
            userProfiles := userProfiles st1 |}, acts, Some current)
  end.

(** ** Event handlers

    Each handler is the body of the corresponding [socket.on] callback of
    the connection [sid], run at instant [now] on the message [msg]; it
    returns the new state and the emits, in order. *)

(** [io.on('connection')]: the profile of the new connection. *)
Definition on_connection (st : state) (now : Z) (sid : string) : state * list action :=
  ({| rooms := rooms st;
      socketToRoom := socketToRoom st;
      userProfiles :=
        profiles_set sid {| connectedAt := now; lastActivity := now;
                            currentRoom := None; activity := None |}
                     (userProfiles st) |}, []).

(** The capacity guard of [room:join]: the target room exists, holds two
    members or more, and this connection is not one of them. *)
Definition roomIsFull (st : state) (sid : string) (cleanRoomId : string) : bool :=
  match rooms st !! cleanRoomId with
  | Some existingRoom =>
      (2 <=? length existingRoom)%nat && negb (set_has sid existingRoom)
  | None => false
  end.

Definition on_room_join (st : state) (now : Z) (sid : string) (msg : payload)
  : state * list action :=
  match field "roomId" msg with
  | VStr raw =>
      if negb (truthy (VStr raw)) || (String.length (trim raw) =? 0)%nat
      then (st, [Emit (ToSocket sid) (EvError "Invalid room ID")])
      else
        let cleanRoomId := toLowerCase (trim raw) in
        if roomIsFull st sid cleanRoomId
        then (st, [Emit (ToSocket sid) (EvError "Room is full")])
        else
          let '(st1, leftEmits, _) := leaveCurrentRoom st sid in
          let s2r := <[sid := cleanRoomId]> (socketToRoom st1) in
          let rooms1 :=
            match rooms st1 !! cleanRoomId with
            | Some _ => rooms st1
            | None => <[cleanRoomId := []]> (rooms st1)
            end in
          let room := set_add sid (default [] (rooms1 !! cleanRoomId)) in
          let rooms2 := <[cleanRoomId := room]> rooms1 in
          let profiles :=
            match profiles_get sid (userProfiles st1) with
            | Some p =>
                profiles_replace sid
                  {| connectedAt := connectedAt p; lastActivity := now;
                     currentRoom := Some cleanRoomId; activity := activity p |}
                  (userProfiles st1)
            | None => userProfiles st1
            end in
          let st2 := {| rooms := rooms2; socketToRoom := s2r;
                        userProfiles := profiles |} in
          let info := getRoomInfo st2 cleanRoomId in
          let otherUsers := filter (λ id, id ≠ sid) room in
          let joined :=
            match otherUsers with
            | [] => []
            | first :: _ =>
                Emit (ToSocket sid) (EvUserJoined first cleanRoomId info)
                :: map (λ userId, Emit (IoTo userId)
                                    (EvUserJoined sid cleanRoomId info)) otherUsers
            end in
          (st2, leftEmits ++ joined ++ [Emit (ToSocket sid) (EvRoomJoined info)])
  | _ => (st, [Emit (ToSocket sid) (EvError "Invalid room ID")])
  end.

(** [Map.get] with a key that need not be a string: the tables hold string
    keys only. *)
Definition roomOf (st : state) (who : value) : option string :=
  match who with
  | VStr s => socketToRoom st !! s
  | _ => None
  end.

Definition on_outgoing_call (st : state) (now : Z) (sid : string) (msg : payload)
  : state * list action :=
  let to := field "to" msg in
  let offer := field "offer" msg in
  if negb (truthy to) || negb (truthy offer)
  then (st, [Emit (ToSocket sid) (EvError "Invalid call parameters")])
  else
    let callerRoom := socketToRoom st !! sid in
    let receiverRoom := roomOf st to in
    let sameRoom :=
      match callerRoom with
      | Some r => negb (String.eqb r EmptyString) && bool_decide (receiverRoom = Some r)
      | None => false
      end in
    if negb sameRoom
    then (st, [Emit (ToSocket sid) (EvError "Users are not in the same room")])
    else
      match to with
      | VStr _ =>
          (st, [Emit (SocketTo sid to) (EvIncomingCall sid offer now)])
      | _ => (* to.substring is not a function: caught *)
          (st, [Emit (ToSocket sid) (EvError "Failed to make call")])
      end.

Definition on_call_accepted (st : state) (now : Z) (sid : string) (msg : payload)
  : state * list action :=
  let to := field "to" msg in
  let answer := field "answer" msg in
  if negb (truthy to) || negb (truthy answer)
  then (st, [Emit (ToSocket sid) (EvError "Invalid answer parameters")])
  else
    match to with
    | VStr _ =>
        (st, [Emit (SocketTo sid to) (EvCallAccepted sid answer now)])
    | _ => (* to.substring is not a function: caught *)
        (st, [Emit (ToSocket sid) (EvError "Failed to accept call")])
    end.

Definition on_ice_candidate (st : state) (now : Z) (sid : string) (msg : payload)
  : state * list action :=
  let candidate := field "candidate" msg in
  let to := field "to" msg in
  if negb (truthy candidate) || negb (truthy to)
  then (st, [])
  else (st, [Emit (SocketTo sid to) (EvIceCandidate candidate sid)]).

Definition on_call_ended (st : state) (now : Z) (sid : string) (msg : payload)
  : state * list action :=
  let to := field "to" msg in
  match to with
  | VUndefined | VNull => (st, [])     (* to?.substring is undefined; to is falsy *)
  | VStr _ =>
      if truthy to
      then (st, [Emit (SocketTo sid to) (EvCallEnded sid now)])
      else (st, [])
  | _ => (st, [])                      (* to?.substring is not a function: caught *)
  end.

Definition touch (now : Z) (act : option value) (p : profile) : profile :=
  {| connectedAt := connectedAt p; lastActivity := now;
     currentRoom := currentRoom p;
     activity := match act with Some d => Some d | None => activity p end |}.

Definition on_ping (st : state) (now : Z) (sid : string) : state * list action :=
  ({| rooms := rooms st; socketToRoom := socketToRoom st;
      userProfiles :=
        match profiles_get sid (userProfiles st) with
        | Some p => profiles_replace sid (touch now None p) (userProfiles st)
        | None => userProfiles st
        end |},
   [Emit (ToSocket sid) EvPong]).

Definition on_user_activity (st : state) (now : Z) (sid : string) (data : value)
  : state * list action :=
  ({| rooms := rooms st; socketToRoom := socketToRoom st;
      userProfiles :=
        match profiles_get sid (userProfiles st) with
        | Some p => profiles_replace sid (touch now (Some data) p) (userProfiles st)
        | None => userProfiles st
        end |}, []).

Definition on_disconnect (st : state) (now : Z) (sid : string) (reason : string)
  : state * list action :=
  let '(st1, leftEmits, leftRoom) := leaveCurrentRoom st sid in
  let st2 := unregister st1 sid in
  let gone :=
    match leftRoom with
    | Some r =>
        match rooms st2 !! r with
        | Some room =>
            if (0 <? length room)%nat
            then map (λ remaining, Emit (IoTo remaining)
                                     (EvUserDisconnected sid r reason now)) room
            else []
        | None => []
        end
    | None => []
    end in
  (st2, leftEmits ++ gone).

(** ** Idle reaper *)

Definition maxInactiveTime : Z := 30 * 60 * 1000.

Definition isStale (now : Z) (p : profile) : bool :=
  maxInactiveTime <? now - lastActivity p.

(** One iteration of [userProfiles.forEach]. *)
Definition reap (now : Z) (acc : state * list action) (entry : string * profile)
  : state * list action :=
  let '(st, acts) := acc in
  let '(sid, p) := entry in
  if isStale now p
  then
    let st1 := unregister st sid in
    let '(st2, leftEmits, _) := leaveCurrentRoom st1 sid in
    (st2, acts ++ leftEmits)
  else acc.

Definition cleanupInterval (st : state) (now : Z) : state * list action :=
  let '(st1, acts) := fold_left (reap now) (userProfiles st) (st, []) in
  ({| rooms := filter (λ kv, kv.2 ≠ []) (rooms st1);
      socketToRoom := socketToRoom st1;
      userProfiles := userProfiles st1 |}, acts).

(** ** The server as a transition system *)

Inductive input :=
| Connection (sid : string)
| RoomJoin (sid : string) (msg : payload)
| OutgoingCall (sid : string) (msg : payload)
| CallAccepted (sid : string) (msg : payload)
| IceCandidate (sid : string) (msg : payload)
| CallEnded (sid : string) (msg : payload)
| Ping (sid : string)
| UserActivity (sid : string) (data : value)
| Disconnect (sid : string) (reason : string)
| Cleanup.

Definition step (st : state) (now : Z) (i : input) : state * list action :=
  match i with
  | Connection sid => on_connection st now sid
  | RoomJoin sid msg => on_room_join st now sid msg
  | OutgoingCall sid msg => on_outgoing_call st now sid msg
  | CallAccepted sid msg => on_call_accepted st now sid msg
  | IceCandidate sid msg => on_ice_candidate st now sid msg
  | CallEnded sid msg => on_call_ended st now sid msg
  | Ping sid => on_ping st now sid
  | UserActivity sid data => on_user_activity st now sid data
  | Disconnect sid reason => on_disconnect st now sid reason
  | Cleanup => cleanupInterval st now
  end.

(** Runs a trace of timed inputs, collecting the emits. *)
Fixpoint run (st : state) (trace : list (Z * input)) : state * list action :=
  match trace with
  | [] => (st, [])
  | (now, i) :: rest =>
      let '(st1, acts1) := step st now i in
      let '(st2, acts2) := run st1 rest in
      (st2, acts1 ++ acts2)
  end.

(** States the server can be in: those some trace leads to from [init].
    Inputs are not restricted to live connections, so the set is a superset
    of what a socket.io transport produces. *)
Definition reachable (st : state) : Prop :=
  exists trace, (run init trace).1 = st.

(** ** Auxiliary definitions: invariants, closed forms, scenarios and the
    predicates the properties are stated with *)

(** *** Invariant *)

(** What every reachable state satisfies: rooms hold one or two distinct
    members under a non-empty key, and [socketToRoom] is exactly the
    membership relation of [rooms]. *)
Record wf (st : state) : Prop := {
  wf_capacity : ∀ r ms, rooms st !! r = Some ms → (length ms ≤ 2)%nat;
  wf_nodup : ∀ r ms, rooms st !! r = Some ms → NoDup ms;
  wf_nonempty : ∀ r ms, rooms st !! r = Some ms → ms ≠ [];
  wf_key : ∀ r ms, rooms st !! r = Some ms → r ≠ EmptyString;
  wf_member : ∀ r ms sid,
    rooms st !! r = Some ms → sid ∈ ms → socketToRoom st !! sid = Some r;
  wf_room : ∀ sid r,
    socketToRoom st !! sid = Some r → ∃ ms, rooms st !! r = Some ms ∧ sid ∈ ms
}.

(** *** Closed forms of leave and join *)

(** The room table after [sid] left room [r], whose members were [ms]. *)
Definition roomsAfterLeave (st : state) (sid r : string) (ms : list string)
  : gmap string (list string) :=
  match set_delete sid ms with
  | [] => delete r (rooms st)
  | room' => <[r := room']> (rooms st)
  end.

(** The room table and the socket index after an accepted join. *)
Definition roomsAfterJoin (st1 : state) (sid clean : string) : gmap string (list string) :=
  <[clean := default [] (rooms st1 !! clean) ++ [sid]]> (rooms st1).

(** What [room:join] does to the two tables. *)
Inductive joinOutcome (st : state) (sid : string) (st' : state) : Prop :=
| join_rejected : st' = st → joinOutcome st sid st'
| join_accepted clean :
    clean ≠ EmptyString → roomIsFull st sid clean = false →
    rooms st' = roomsAfterJoin (leaveCurrentRoom st sid).1.1 sid clean →
    socketToRoom st' = <[sid := clean]> (socketToRoom (leaveCurrentRoom st sid).1.1) →
    joinOutcome st sid st'.

(** *** Scenarios *)

Definition joinMsg (raw : string) : payload := {[ "roomId" := VStr raw ]}.

(** Connections [a] and [b] paired in room [demo]. *)
Definition pairTrace : list (Z * input) :=
  [(0, Connection "a"); (1, Connection "b");
   (2, RoomJoin "a" (joinMsg "Demo")); (3, RoomJoin "b" (joinMsg "demo "))].

Definition pairState : state := (run init pairTrace).1.

(** [a] and [b] paired in [demo], and [c] alone in room [old]. *)
Definition threeTrace : list (Z * input) :=
  pairTrace ++ [(4, Connection "c"); (5, RoomJoin "c" (joinMsg "old"))].

Definition threeState : state := (run init threeTrace).1.

(** *** Vocabulary of the properties *)

(** The emit that reports [RoomFull]. *)
Definition roomFull (sid : string) : action :=
  Emit (ToSocket sid) (EvError "Room is full").

(** The reading of [room:join] in which the implicit leave comes before
    the capacity check: a join rejected with [RoomFull] has taken the
    connection out of the room it was in. *)
Definition leaveBeforeCapacityCheck
  (st : state) (now : Z) (sid : string) (msg : payload) : Prop :=
  ∀ old, socketToRoom st !! sid = Some old →
    (on_room_join st now sid msg).2 = [roomFull sid] →
    socketToRoom (on_room_join st now sid msg).1 !! sid = None.

(** Two connections that are members of one room. *)
Definition sameRoom (st : state) (a b : string) : Prop :=
  ∃ r ms, rooms st !! r = Some ms ∧ a ∈ ms ∧ b ∈ ms.

(** The events an emit sequence delivers to connection [who], in order. *)
Definition inbox (who : string) (acts : list action) : list event :=
  map (λ a, match a with Emit _ e => e end) (filter (λ a, receives who a = true) acts).

Definition notColocated (sid : string) : action :=
  Emit (ToSocket sid) (EvError "Users are not in the same room").

(** The sender field of a relayed signaling event. *)
Definition relayedFrom (e : event) : option string :=
  match e with
  | EvIncomingCall from _ _ | EvCallAccepted from _ _
  | EvIceCandidate _ from | EvCallEnded from _ => Some from
  | _ => None
  end.

(** The four relaying handlers, by the name of the inbound message. *)
Inductive relay := RelayOffer | RelayAnswer | RelayCandidate | RelayEnd.

Definition on_relay (k : relay) : state → Z → string → payload → state * list action :=
  match k with
  | RelayOffer => on_outgoing_call
  | RelayAnswer => on_call_accepted
  | RelayCandidate => on_ice_candidate
  | RelayEnd => on_call_ended
  end.

(** [a] in [demo], [b] in [other]: two connections in different rooms. *)
Definition apartTrace : list (Z * input) :=
  [(0, Connection "a"); (1, Connection "b");
   (2, RoomJoin "a" (joinMsg "demo")); (3, RoomJoin "b" (joinMsg "other"))].

Definition apartState : state := (run init apartTrace).1.

Definition offerMsg (to : string) : payload :=
  {[ "to" := VStr to; "offer" := VObj "sdp-offer" ]}.

Definition answerMsg (to : string) : payload :=
  {[ "to" := VStr to; "answer" := VObj "sdp-answer" ]}.

Definition isDeparture (e : event) : bool :=
  match e with
  | EvUserLeft _ _ _ | EvUserDisconnected _ _ _ _ => true
  | _ => false
  end.

(** The departure notifications ([user:left], [user:disconnected]) that an
    emit sequence delivers to [who]. *)
Definition departureNotices (who : string) (acts : list action) : list event :=
  filter (λ e, isDeparture e = true) (inbox who acts).

(** The reading in which one departure yields exactly one notification. *)
Definition oneDepartureNotice (who : string) (acts : list action) : Prop :=
  length (departureNotices who acts) = 1%nat.

(** The sweep at [now] evicts [sid]: it has a stale profile. *)
Definition evicted (now : Z) (st : state) (sid : string) : Prop :=
  ∃ p, (sid, p) ∈ userProfiles st ∧ isStale now p = true.

(** [a] and [b] paired at instants 0 to 3; [b] pings at minute 20. *)
Definition idleTrace : list (Z * input) :=
  pairTrace ++ [(1200000, Ping "b")].

Definition idleState : state := (run init idleTrace).1.

(** A connection that is neither tracked nor mapped stays so. *)
Definition gone (st : state) (sid : string) : Prop :=
  profiles_get sid (userProfiles st) = None ∧ socketToRoom st !! sid = None.

(** *** Further vocabulary: errors, senders, the profile table *)

(** The emit that reports [InvalidRoom]. *)
Definition invalidRoom (sid : string) : action :=
  Emit (ToSocket sid) (EvError "Invalid room ID").

(** The canonical key [room:join] computes from a raw room id. *)
Definition cleanRoomId (raw : string) : string := toLowerCase (trim raw).

(** The connection an input comes from; the reaper's tick has none. *)
Definition sender (i : input) : option string :=
  match i with
  | Connection sid | RoomJoin sid _ | OutgoingCall sid _ | CallAccepted sid _
  | IceCandidate sid _ | CallEnded sid _ | Ping sid | UserActivity sid _
  | Disconnect sid _ => Some sid
  | Cleanup => None
  end.

(** [userProfiles] holds one entry per connection id, as a [Map] does. *)
Definition keysUnique (st : state) : Prop := NoDup (userProfiles st).*1.

(** [a] alone in room [demo]. *)
Definition soloTrace : list (Z * input) :=
  [(0, Connection "a"); (2, RoomJoin "a" (joinMsg "Demo"))].

Definition soloState : state := (run init soloTrace).1.

(** Every key of the room table is a canonical key. *)
Definition canonicalKeys (st : state) : Prop :=
  ∀ r ms, rooms st !! r = Some ms → cleanRoomId r = r.

(** *** Requests: the callback argument before it is destructured *)

(** What a client sends with an event.  The callbacks of [room:join] and
    of the four signaling events destructure their argument in the
    parameter list, which lies outside their [try] block: with no
    argument, or [null], the destructuring throws a TypeError that nothing
    catches.  A primitive argument is destructured through its wrapper
    object, which has none of the properties the callbacks name, and so
    behaves as the empty object. *)
Inductive argument :=
| NoPayload                      (* undefined or null *)
| Payload (msg : payload).

Inductive request :=
| ReqConnection (sid : string)
| ReqRoomJoin (sid : string) (arg : argument)
| ReqOutgoingCall (sid : string) (arg : argument)
| ReqCallAccepted (sid : string) (arg : argument)
| ReqIceCandidate (sid : string) (arg : argument)
| ReqCallEnded (sid : string) (arg : argument)
| ReqPing (sid : string)
| ReqUserActivity (sid : string) (data : value)
| ReqDisconnect (sid : string) (reason : string)
| ReqCleanup.

(** The parameter list of the callback: the input its body runs on, or
    [None] when the destructuring throws. *)
Definition destructure (r : request) : option input :=
  match r with
  | ReqConnection sid => Some (Connection sid)
  | ReqRoomJoin sid (Payload msg) => Some (RoomJoin sid msg)
  | ReqOutgoingCall sid (Payload msg) => Some (OutgoingCall sid msg)
  | ReqCallAccepted sid (Payload msg) => Some (CallAccepted sid msg)
  | ReqIceCandidate sid (Payload msg) => Some (IceCandidate sid msg)
  | ReqCallEnded sid (Payload msg) => Some (CallEnded sid msg)
  | ReqRoomJoin _ NoPayload | ReqOutgoingCall _ NoPayload
  | ReqCallAccepted _ NoPayload | ReqIceCandidate _ NoPayload
  | ReqCallEnded _ NoPayload => None
  | ReqPing sid => Some (Ping sid)
  | ReqUserActivity sid data => Some (UserActivity sid data)
  | ReqDisconnect sid reason => Some (Disconnect sid reason)
  | ReqCleanup => Some Cleanup
  end.

(** What becomes of a request: the callback returns, or the uncaught
    exception reaches [process.on('uncaughtException')], which logs it and
    calls [process.exit(1)]; the tables, which live in the process, are
    lost. *)
Inductive outcome :=
| Handled (st : state) (acts : list action)
| ProcessExit.

Definition serve (st : state) (now : Z) (r : request) : outcome :=
  match destructure r with
  | Some i => let '(st', acts) := step st now i in Handled st' acts
  | None => ProcessExit
  end.

(** The connection a request comes from. *)
Definition requestSender (r : request) : option string :=
  match r with
  | ReqConnection sid | ReqRoomJoin sid _ | ReqOutgoingCall sid _
  | ReqCallAccepted sid _ | ReqIceCandidate sid _ | ReqCallEnded sid _
  | ReqPing sid | ReqUserActivity sid _ | ReqDisconnect sid _ => Some sid
  | ReqCleanup => None
  end.

(** The request of each of the four signaling events. *)
Definition relayRequest (k : relay) (sid : string) (arg : argument) : request :=
  match k with
  | RelayOffer => ReqOutgoingCall sid arg
  | RelayAnswer => ReqCallAccepted sid arg
  | RelayCandidate => ReqIceCandidate sid arg
  | RelayEnd => ReqCallEnded sid arg
  end.

(** The stale keys of a list of profile entries. *)
Definition staleKey (now : Z) (entries : list (string * profile)) (k : string) : bool :=
  existsb (λ e, isStale now e.2 && bool_decide (e.1 = k)) entries.

(** *** The string builtins on code points

    [trim] and [toLowerCase] are builtins of the runtime, defined by
    ECMAScript on strings of any code points.  [Unicode] gives them on
    lists of code points: the white space of ECMAScript in full, and the
    lower-casing of the Default Case Conversion, with its one
    context-sensitive rule (a capital sigma becomes a final sigma when a
    cased letter precedes it and none follows), over the case mappings and
    the Cased and Case_Ignorable properties of Basic Latin, Latin-1
    Supplement, Combining Diacritical Marks and the Greek letters; code
    points of other blocks are taken to have neither.  [JsString] is their
    restriction to code units below 256, where no rule depends on the
    context. *)

Module Unicode.

Definition inRange (lo hi c : N) : bool := ((lo <=? c) && (c <=? hi))%N.

(** WhiteSpace and LineTerminator of ECMAScript. *)
Definition isWhiteSpace (c : N) : bool :=
  (inRange 9 13 c || (c =? 0x20) || (c =? 0xA0) || (c =? 0x1680)
   || inRange 0x2000 0x200A c || (c =? 0x2028) || (c =? 0x2029)
   || (c =? 0x202F) || (c =? 0x205F) || (c =? 0x3000) || (c =? 0xFEFF))%N.

Definition capitalSigma : N := 0x3A3%N.
Definition smallSigma : N := 0x3C3%N.
Definition finalSigma : N := 0x3C2%N.

(** The simple lower-case mapping of a code point. *)
Definition lowerOf (c : N) : N :=
  (if inRange 0x41 0x5A c then c + 32
   else if inRange 0xC0 0xDE c && negb (c =? 0xD7) then c + 32
   else if c =? 0x386 then 0x3AC
   else if inRange 0x388 0x38A c then c + 37
   else if c =? 0x38C then 0x3CC
   else if inRange 0x38E 0x38F c then c + 63
   else if inRange 0x391 0x3AB c && negb (c =? 0x3A2) then c + 32
   else c)%N.

Definition cased (c : N) : bool :=
  (inRange 0x41 0x5A c || inRange 0x61 0x7A c
   || (c =? 0xAA) || (c =? 0xB5) || (c =? 0xBA)
   || inRange 0xC0 0xD6 c || inRange 0xD8 0xF6 c || inRange 0xF8 0xFF c
   || (c =? 0x386) || inRange 0x388 0x38A c || (c =? 0x38C)
   || inRange 0x38E 0x3A1 c || inRange 0x3A3 0x3CE c)%N.

Definition caseIgnorable (c : N) : bool :=
  ((c =? 0x27) || (c =? 0x2E) || (c =? 0x3A) || (c =? 0x5E) || (c =? 0x60)
   || (c =? 0xA8) || (c =? 0xAD) || (c =? 0xAF) || (c =? 0xB4) || (c =? 0xB7)
   || (c =? 0xB8) || inRange 0x300 0x36F c
   || (c =? 0x384) || (c =? 0x385) || (c =? 0x387))%N.

(** Case-ignorable code points, then a cased letter. *)
Fixpoint followedByCased (rest : list N) : bool :=
  match rest with
  | [] => false
  | c :: r => cased c || (caseIgnorable c && followedByCased r)
  end.

(** Lower-casing from left to right; [before]: a cased letter, then
    case-ignorable code points only, precede. *)
Fixpoint lowerFrom (before : bool) (cps : list N) : list N :=
  match cps with
  | [] => []
  | c :: rest =>
      (if (c =? capitalSigma)%N
       then (if before && negb (followedByCased rest) then finalSigma else smallSigma)
       else lowerOf c)
      :: lowerFrom (cased c || (caseIgnorable c && before)) rest
  end.

Definition toLowerCase (cps : list N) : list N := lowerFrom false cps.

Fixpoint trimStart (cps : list N) : list N :=
  match cps with
  | [] => []
  | c :: r => if isWhiteSpace c then trimStart r else cps
  end.

Fixpoint trimEnd (cps : list N) : list N :=
  match cps with
  | [] => []
  | c :: r =>
      match trimEnd r with
      | [] => if isWhiteSpace c then [] else [c]
      | t => c :: t
      end
  end.

Definition trim (cps : list N) : list N := trimEnd (trimStart cps).

(** [roomId.trim().toLowerCase()] on code points. *)
Definition cleanRoomId (cps : list N) : list N := toLowerCase (trim cps).

(** The capital letters and the distance to their small letters: A-Z,
    the Latin-1 capitals, the Greek capitals with tonos, and alpha to
    omega, sigma included. *)
Definition casePairs : list (N * N * N) :=
  [(0x41, 0x5A, 32); (0xC0, 0xD6, 32); (0xD8, 0xDE, 32);
   (0x386, 0x386, 38); (0x388, 0x38A, 37); (0x38C, 0x38C, 64);
   (0x38E, 0x38F, 63); (0x391, 0x3A1, 32); (0x3A3, 0x3AB, 32)]%N.

(** [u] is a capital letter and [l] its small letter. *)
Definition letterCase (u l : N) : Prop :=
  ∃ lo hi d, (lo, hi, d) ∈ casePairs ∧ (lo <= u <= hi)%N ∧ l = (u + d)%N.

(** Two code points that are the same letter, possibly in different
    case. *)
Definition caseVariant (a b : N) : Prop :=
  a = b ∨ letterCase a b ∨ letterCase b a.


Definition blank (cps : list N) : Prop := Forall (λ c, isWhiteSpace c = true) cps.







End Unicode.


(** * Properties *)

(** ** Room-id normalisation *)

Section Normalisation.

Local Open Scope string_scope.

Lemma code_inj_shift (a b : ascii) :
  code b = (code a + 32)%N -> b = ascii_of_N (code a + 32).
Proof.
  intros H. rewrite <- H. unfold code. symmetry. apply ascii_N_embedding.
Qed.

Lemma upper_shift_lower (a : ascii) :
  isUpper a = true ->
  lowerChar (ascii_of_N (code a + 32)) = lowerChar a
  /\ isWhiteSpace (ascii_of_N (code a + 32)) = isWhiteSpace a.
Proof.
  destruct a as [[] [] [] [] [] [] [] []]; vm_compute;
    intros H; first [discriminate H | split; reflexivity].
Qed.

Lemma caseVariant_lowerChar (a b : ascii) :
  caseVariant a b -> lowerChar a = lowerChar b.
Proof.
  intros [-> | [[Hu Hc] | [Hu Hc]]]; [reflexivity | |];
    apply code_inj_shift in Hc; subst;
    destruct (upper_shift_lower _ Hu) as [Hl _]; congruence.
Qed.

Lemma caseVariant_isWhiteSpace (a b : ascii) :
  caseVariant a b -> isWhiteSpace a = isWhiteSpace b.
Proof.
  intros [-> | [[Hu Hc] | [Hu Hc]]]; [reflexivity | |];
    apply code_inj_shift in Hc; subst;
    destruct (upper_shift_lower _ Hu) as [_ Hw]; congruence.
Qed.

Lemma trimStart_blank (s : string) : blank s = true -> trimStart s = EmptyString.
Proof.
  induction s as [|c s IH]; simpl; [reflexivity|].
  intros [Hc Hs]%andb_prop. rewrite Hc. auto.
Qed.

Lemma trimEnd_blank (s : string) : blank s = true -> trimEnd s = EmptyString.
Proof.
  induction s as [|c s IH]; simpl; [reflexivity|].
  intros [Hc Hs]%andb_prop. rewrite (IH Hs), Hc. reflexivity.
Qed.

Lemma trimStart_blank_app (l s : string) :
  blank l = true -> trimStart (l ++ s) = trimStart s.
Proof.
  induction l as [|c l IH]; simpl; [reflexivity|].
  intros [Hc Hl]%andb_prop. rewrite Hc. auto.
Qed.

Lemma trimEnd_app_blank (s r : string) :
  blank r = true -> trimEnd (s ++ r) = trimEnd s.
Proof.
  intros Hr. induction s as [|c s IH]; simpl.
  - apply trimEnd_blank, Hr.
  - rewrite IH. reflexivity.
Qed.

Lemma trimStart_app (s r : string) :
  trimStart (s ++ r) = if blank s then trimStart r else trimStart s ++ r.
Proof.
  induction s as [|c s IH]; simpl; [reflexivity|].
  destruct (isWhiteSpace c); simpl; [exact IH | reflexivity].
Qed.

(** Padding with white space on either side is invisible to [trim]. *)
Lemma trim_padding (l c r : string) :
  blank l = true -> blank r = true -> trim (l ++ c ++ r) = trim c.
Proof.
  intros Hl Hr. unfold trim.
  rewrite (trimStart_blank_app _ _ Hl), trimStart_app.
  destruct (blank c) eqn:Hc.
  - rewrite (trimStart_blank _ Hr), (trimStart_blank _ Hc). reflexivity.
  - apply trimEnd_app_blank, Hr.
Qed.

Lemma sameUpToCase_trimStart (s t : string) :
  sameUpToCase s t -> sameUpToCase (trimStart s) (trimStart t).
Proof.
  induction 1 as [|a b s t Hab Hst IH]; simpl; [constructor|].
  rewrite <- (caseVariant_isWhiteSpace _ _ Hab).
  destruct (isWhiteSpace a); [exact IH | constructor; assumption].
Qed.

Lemma sameUpToCase_trimEnd (s t : string) :
  sameUpToCase s t -> sameUpToCase (trimEnd s) (trimEnd t).
Proof.
  induction 1 as [|a b s t Hab Hst IH]; simpl; [constructor|].
  rewrite <- (caseVariant_isWhiteSpace _ _ Hab).
  destruct IH as [|a' b' s' t' Hab' Hst'].
  - destruct (isWhiteSpace a);
      [apply sameUpToCase_nil
      | apply sameUpToCase_cons; [assumption | apply sameUpToCase_nil]].
  - apply sameUpToCase_cons; [assumption|].
    apply sameUpToCase_cons; assumption.
Qed.

Lemma sameUpToCase_toLowerCase (s t : string) :
  sameUpToCase s t -> toLowerCase s = toLowerCase t.
Proof.
  induction 1 as [|a b s t Hab Hst IH]; simpl; [reflexivity|].
  rewrite (caseVariant_lowerChar _ _ Hab), IH. reflexivity.
Qed.

Lemma toLowerCase_length (s : string) :
  String.length (toLowerCase s) = String.length s.
Proof. induction s; simpl; congruence. Qed.

Lemma toLowerCase_empty (s : string) : toLowerCase s = EmptyString -> s = EmptyString.
Proof. destruct s; [reflexivity | discriminate]. Qed.

(** The canonical key of raw ids that differ by case and padding only. *)
Lemma cleanRoomId_canonical (s1 s2 : string) :
  sameUpToCaseAndPadding s1 s2 ->
  toLowerCase (trim s1) = toLowerCase (trim s2).
Proof.
  intros (l1 & c1 & r1 & l2 & c2 & r2 & -> & -> & Hl1 & Hr1 & Hl2 & Hr2 & Hc).
  rewrite !trim_padding by assumption.
  apply sameUpToCase_toLowerCase. unfold trim.
  apply sameUpToCase_trimEnd, sameUpToCase_trimStart, Hc.
Qed.

End Normalisation.

(** ** Invariants of the room table *)

Lemma wf_init : wf init.
Proof. split; simpl; intros *; rewrite lookup_empty; discriminate. Qed.

Lemma eqb_empty_false (r : string) : r ≠ EmptyString → String.eqb r EmptyString = false.
Proof. intros H. apply String.eqb_neq, H. Qed.

Lemma set_has_true (x : string) (s : list string) : set_has x s = true ↔ x ∈ s.
Proof. unfold set_has. apply bool_decide_eq_true. Qed.

Lemma set_has_false (x : string) (s : list string) : set_has x s = false ↔ x ∉ s.
Proof. unfold set_has. apply bool_decide_eq_false. Qed.

Lemma elem_of_set_delete (x y : string) (s : list string) :
  y ∈ set_delete x s ↔ y ≠ x ∧ y ∈ s.
Proof. unfold set_delete. exact (list_elem_of_filter (λ z, z ≠ x) s y). Qed.

Lemma set_delete_notin (x : string) (s : list string) :
  x ∉ s → set_delete x s = s.
Proof.
  unfold set_delete. induction s as [|y s IH]; intros Hx; [reflexivity|].
  rewrite filter_cons. destruct (decide (y ≠ x)) as [_|Hyx].
  - f_equal. apply IH. intros ?. apply Hx. now right.
  - exfalso. apply Hx. destruct (decide (y = x)); [subst; now left | tauto].
Qed.

Lemma elem_of_set_add (x y : string) (s : list string) :
  y ∈ set_add x s ↔ y = x ∨ y ∈ s.
Proof.
  unfold set_add. destruct (set_has x s) eqn:E.
  - apply set_has_true in E. split; [auto | intros [-> | ?]; auto].
  - rewrite elem_of_app, list_elem_of_singleton. tauto.
Qed.

Lemma NoDup_set_add (x : string) (s : list string) : NoDup s → NoDup (set_add x s).
Proof.
  unfold set_add. intros Hs. destruct (set_has x s) eqn:E; [assumption|].
  apply set_has_false in E. apply NoDup_app. split; [assumption|]. split.
  - intros y Hy ->%list_elem_of_singleton. contradiction.
  - apply NoDup_singleton.
Qed.

(** *** [leaveCurrentRoom] in closed form *)

Lemma leave_unmapped (st : state) (sid : string) :
  socketToRoom st !! sid = None → leaveCurrentRoom st sid = (st, [], None).
Proof. intros H. unfold leaveCurrentRoom. rewrite H. reflexivity. Qed.

Lemma leave_mapped (st : state) (sid r : string) (ms : list string) :
  r ≠ EmptyString → socketToRoom st !! sid = Some r → rooms st !! r = Some ms →
  leaveCurrentRoom st sid =
    ({| rooms := roomsAfterLeave st sid r ms;
        socketToRoom := delete sid (socketToRoom st);
        userProfiles := userProfiles st |},
     map (λ other, Emit (IoTo other) (EvUserLeft sid r (length (set_delete sid ms))))
         (set_delete sid ms),
     Some r).
Proof.
  intros Hr Hs Hm. unfold leaveCurrentRoom, roomsAfterLeave, cleanupRoom.
  rewrite Hs, (eqb_empty_false _ Hr), Hm. simpl.
  rewrite lookup_insert_eq.
  destruct (set_delete sid ms) as [|x room'] eqn:E; simpl.
  - rewrite delete_insert_eq. reflexivity.
  - reflexivity.
Qed.

Lemma roomsAfterLeave_lookup (st : state) (sid r : string) (ms : list string) (r' : string) :
  roomsAfterLeave st sid r ms !! r' =
    if decide (r' = r)
    then (if decide (set_delete sid ms = []) then None else Some (set_delete sid ms))
    else rooms st !! r'.
Proof.
  unfold roomsAfterLeave.
  destruct (set_delete sid ms) as [|x room'] eqn:E; destruct (decide (r' = r)) as [->|Hne].
  - rewrite lookup_delete_eq. reflexivity.
  - rewrite lookup_delete_ne by congruence. reflexivity.
  - rewrite lookup_insert_eq. reflexivity.
  - rewrite lookup_insert_ne by congruence. reflexivity.
Qed.

Lemma wf_leave (st : state) (sid : string) :
  wf st → wf (leaveCurrentRoom st sid).1.1.
Proof.
  intros Hwf. destruct (socketToRoom st !! sid) as [r|] eqn:Hs.
  2:{ rewrite leave_unmapped by assumption. exact Hwf. }
  destruct (wf_room _ Hwf _ _ Hs) as (ms & Hm & Hin).
  pose proof (wf_key _ Hwf _ _ Hm) as Hr.
  rewrite (leave_mapped _ _ _ _ Hr Hs Hm). simpl.
  assert (Hlook : ∀ r' ms', roomsAfterLeave st sid r ms !! r' = Some ms' →
            (r' = r ∧ ms' = set_delete sid ms ∧ ms' ≠ []) ∨
            (r' ≠ r ∧ rooms st !! r' = Some ms')).
  { intros r' ms'. rewrite roomsAfterLeave_lookup.
    destruct (decide (r' = r)) as [->|Hne]; [|auto].
    destruct (decide (set_delete sid ms = [])) as [E|E]; [discriminate|].
    intros [= <-]. auto. }
  split; simpl.
  - intros r' ms' [(-> & -> & _) | (_ & H)]%Hlook.
    + etrans; [apply length_filter|]. eapply wf_capacity; eauto.
    + eapply wf_capacity; eauto.
  - intros r' ms' [(-> & -> & _) | (_ & H)]%Hlook.
    + apply NoDup_filter. eapply wf_nodup; eauto.
    + eapply wf_nodup; eauto.
  - intros r' ms' [(-> & -> & Hne) | (_ & H)]%Hlook; [assumption|].
    eapply wf_nonempty; eauto.
  - intros r' ms' [(-> & -> & _) | (_ & H)]%Hlook; [assumption|].
    eapply wf_key; eauto.
  - intros r' ms' x [(-> & -> & _) | (Hne & H)]%Hlook Hx.
    + apply elem_of_set_delete in Hx as [Hxs Hx].
      rewrite lookup_delete_ne by congruence. eapply wf_member; eauto.
    + pose proof (wf_member _ Hwf _ _ _ H Hx) as Hxr.
      rewrite lookup_delete_ne; [assumption|]. intros ->. congruence.
  - intros x r' Hx.
    destruct (decide (sid = x)) as [->|Hne];
      [rewrite lookup_delete_eq in Hx; discriminate|].
    rewrite lookup_delete_ne in Hx by assumption.
    destruct (wf_room _ Hwf _ _ Hx) as (ms' & Hm' & Hin').
    rewrite roomsAfterLeave_lookup.
    destruct (decide (r' = r)) as [->|Hrr]; [|eauto].
    assert (ms' = ms) as -> by congruence.
    assert (x ∈ set_delete sid ms) as Hxd by (apply elem_of_set_delete; auto).
    destruct (decide (set_delete sid ms = [])) as [E|E].
    + rewrite E in Hxd. inversion Hxd.
    + eauto.
Qed.

Lemma wf_leave_unmaps (st : state) (sid : string) :
  wf st → socketToRoom (leaveCurrentRoom st sid).1.1 !! sid = None.
Proof.
  intros Hwf. destruct (socketToRoom st !! sid) as [r|] eqn:Hs.
  2:{ rewrite leave_unmapped by assumption. exact Hs. }
  destruct (wf_room _ Hwf _ _ Hs) as (ms & Hm & Hin).
  rewrite (leave_mapped _ _ _ _ (wf_key _ Hwf _ _ Hm) Hs Hm). simpl.
  apply lookup_delete_eq.
Qed.

Lemma wf_ext (st st' : state) :
  rooms st' = rooms st → socketToRoom st' = socketToRoom st → wf st → wf st'.
Proof.
  intros Hr Hs [H1 H2 H3 H4 H5 H6].
  split; rewrite ?Hr, ?Hs; assumption.
Qed.

Lemma wf_unmapped_notin (st : state) (sid r : string) (ms : list string) :
  wf st → socketToRoom st !! sid = None → rooms st !! r = Some ms → sid ∉ ms.
Proof.
  intros Hwf Hs Hm Hin. rewrite (wf_member _ Hwf _ _ _ Hm Hin) in Hs. discriminate.
Qed.

(** After the implicit leave, a room that passed the capacity guard has
    at most one member. *)
Lemma leave_makes_space (st : state) (sid clean : string) (m : list string) :
  wf st → roomIsFull st sid clean = false →
  rooms (leaveCurrentRoom st sid).1.1 !! clean = Some m → (length m ≤ 1)%nat.
Proof.
  intros Hwf Hfull. unfold roomIsFull in Hfull.
  assert (Hfree : ∀ ms, rooms st !! clean = Some ms → sid ∉ ms → (length ms ≤ 1)%nat).
  { intros ms Hms Hnotin. rewrite Hms in Hfull.
    apply set_has_false in Hnotin. rewrite Hnotin in Hfull. cbn [negb] in Hfull.
    rewrite andb_true_r in Hfull. apply Nat.leb_gt in Hfull. lia. }
  destruct (socketToRoom st !! sid) as [r|] eqn:Hs.
  - destruct (wf_room _ Hwf _ _ Hs) as (ms & Hm & Hin).
    rewrite (leave_mapped _ _ _ _ (wf_key _ Hwf _ _ Hm) Hs Hm). simpl.
    rewrite roomsAfterLeave_lookup.
    destruct (decide (clean = r)) as [->|Hne].
    + destruct (decide (set_delete sid ms = [])); [discriminate|]. intros [= <-].
      pose proof (wf_capacity _ Hwf _ _ Hm).
      pose proof (length_filter_lt (λ y, y ≠ sid) ms sid Hin) as Hlt.
      unfold set_delete. cut (length (filter (λ y, y ≠ sid) ms) < length ms)%nat; [lia|].
      apply Hlt. tauto.
    + intros Hm'. apply (Hfree _ Hm'). intros Hin'.
      pose proof (wf_member _ Hwf _ _ _ Hm' Hin'). congruence.
  - rewrite leave_unmapped by assumption. simpl. intros Hm.
    apply (Hfree _ Hm). eapply wf_unmapped_notin; eauto.
Qed.

Lemma room_join_outcome (st : state) (now : Z) (sid : string) (msg : payload) :
  wf st → joinOutcome st sid (on_room_join st now sid msg).1.
Proof.
  intros Hwf. unfold on_room_join.
  destruct (field "roomId" msg) as [| | | |raw|]; try (now apply join_rejected).
  destruct (negb (truthy (VStr raw)) || (String.length (trim raw) =? 0)%nat) eqn:Hv;
    [now apply join_rejected|].
  apply orb_false_elim in Hv as [_ Hlen]. apply Nat.eqb_neq in Hlen.
  set (clean := toLowerCase (trim raw)).
  assert (Hclean : clean ≠ EmptyString).
  { intros E%toLowerCase_empty. rewrite E in Hlen. now apply Hlen. }
  destruct (roomIsFull st sid clean) eqn:Hfull; [now apply join_rejected|].
  pose proof (wf_leave st sid Hwf) as Hwf1.
  pose proof (wf_leave_unmaps st sid Hwf) as Hun.
  destruct (leaveCurrentRoom st sid) as [[st1 lefts] o] eqn:E. simpl in *.
  apply (join_accepted _ _ _ clean); rewrite ?E; simpl;
    try assumption; try reflexivity.
  unfold roomsAfterJoin.
  destruct (rooms st1 !! clean) as [m|] eqn:Hm; simpl.
  - rewrite Hm. simpl. unfold set_add.
    pose proof (wf_unmapped_notin _ _ _ _ Hwf1 Hun Hm) as Hnotin.
    apply set_has_false in Hnotin. rewrite Hnotin. reflexivity.
  - rewrite lookup_insert_eq. simpl. rewrite insert_insert_eq. reflexivity.
Qed.

Lemma wf_room_join (st : state) (now : Z) (sid : string) (msg : payload) :
  wf st → wf (on_room_join st now sid msg).1.
Proof.
  intros Hwf.
  destruct (room_join_outcome st now sid msg Hwf) as [->|clean Hclean Hfull Hrooms Hs2r];
    [assumption|].
  pose proof (wf_leave st sid Hwf) as Hwf1.
  pose proof (wf_leave_unmaps st sid Hwf) as Hun.
  pose proof (leave_makes_space st sid clean) as Hspace.
  set (st1 := (leaveCurrentRoom st sid).1.1) in *.
  assert (Hlook : ∀ r ms, roomsAfterJoin st1 sid clean !! r = Some ms →
            (r = clean ∧ ms = default [] (rooms st1 !! clean) ++ [sid]) ∨
            (r ≠ clean ∧ rooms st1 !! r = Some ms)).
  { intros r ms. unfold roomsAfterJoin.
    destruct (decide (r = clean)) as [->|Hne].
    - rewrite lookup_insert_eq. intros [= <-]. auto.
    - rewrite lookup_insert_ne by congruence. auto. }
  assert (Hold : ∀ x, x ∈ default [] (rooms st1 !! clean) →
            ∃ m, rooms st1 !! clean = Some m ∧ x ∈ m).
  { intros x. destruct (rooms st1 !! clean) as [m|]; simpl; [eauto|].
    intros Hx. inversion Hx. }
  split; rewrite ?Hrooms, ?Hs2r.
  - intros r ms [(-> & ->) | (_ & H)]%Hlook; [|eapply wf_capacity; eauto].
    rewrite length_app. simpl.
    destruct (rooms st1 !! clean) as [m|] eqn:Hm; simpl; [|lia].
    specialize (Hspace m Hwf Hfull eq_refl). lia.
  - intros r ms [(-> & ->) | (_ & H)]%Hlook; [|eapply wf_nodup; eauto].
    apply NoDup_app. split; [|split].
    + destruct (rooms st1 !! clean) as [m|] eqn:Hm; simpl;
        [eapply wf_nodup; eauto | apply NoDup_nil_2].
    + intros x (m & Hm & Hx)%Hold ->%list_elem_of_singleton.
      eapply wf_unmapped_notin; eauto.
    + apply NoDup_singleton.
  - intros r ms [(-> & ->) | (_ & H)]%Hlook; [|eapply wf_nonempty; eauto].
    destruct (default [] (rooms st1 !! clean)); discriminate.
  - intros r ms [(-> & ->) | (_ & H)]%Hlook; [assumption|eapply wf_key; eauto].
  - intros r ms x [(-> & ->) | (Hne & H)]%Hlook Hx.
    + apply elem_of_app in Hx as [(m & Hm & Hx)%Hold | ->%list_elem_of_singleton].
      * pose proof (wf_member _ Hwf1 _ _ _ Hm Hx) as Hxr.
        rewrite lookup_insert_ne; [assumption|]. intros ->. congruence.
      * apply lookup_insert_eq.
    + pose proof (wf_member _ Hwf1 _ _ _ H Hx) as Hxr.
      rewrite lookup_insert_ne; [assumption|]. intros ->. congruence.
  - intros x r Hx. unfold roomsAfterJoin.
    destruct (decide (sid = x)) as [->|Hne].
    + rewrite lookup_insert_eq in Hx. injection Hx as <-.
      rewrite lookup_insert_eq. eexists. split; [reflexivity|].
      apply elem_of_app. right. now apply list_elem_of_singleton.
    + rewrite lookup_insert_ne in Hx by assumption.
      destruct (wf_room _ Hwf1 _ _ Hx) as (ms & Hm & Hin).
      destruct (decide (r = clean)) as [->|Hrc].
      * rewrite lookup_insert_eq, Hm. simpl. eexists. split; [reflexivity|].
        apply elem_of_app. now left.
      * rewrite lookup_insert_ne by congruence. eauto.
Qed.

Lemma wf_disconnect (st : state) (now : Z) (sid reason : string) :
  wf st → wf (on_disconnect st now sid reason).1.
Proof.
  intros Hwf. unfold on_disconnect.
  pose proof (wf_leave st sid Hwf) as Hwf1.
  destruct (leaveCurrentRoom st sid) as [[st1 lefts] o]. simpl in *.
  eapply wf_ext; [| |exact Hwf1]; reflexivity.
Qed.

Lemma wf_reap (now : Z) (acc : state * list action) (entry : string * profile) :
  wf acc.1 → wf (reap now acc entry).1.
Proof.
  destruct acc as [st acts], entry as [sid p]. simpl. intros Hwf.
  destruct (isStale now p); [|assumption].
  assert (Hwf1 : wf (unregister st sid))
    by (eapply wf_ext; [| |exact Hwf]; reflexivity).
  pose proof (wf_leave _ sid Hwf1) as Hwf2.
  destruct (leaveCurrentRoom (unregister st sid) sid) as [[st2 lefts] o].
  exact Hwf2.
Qed.

Lemma wf_fold_reap (now : Z) (entries : list (string * profile)) (acc : state * list action) :
  wf acc.1 → wf (fold_left (reap now) entries acc).1.
Proof.
  revert acc. induction entries as [|e entries IH]; intros acc Hwf; simpl;
    [assumption|].
  apply IH, wf_reap, Hwf.
Qed.

(** In a well-formed table no room is empty: the final sweep of the reaper
    finds nothing to delete. *)
Lemma wf_sweep_id (st : state) :
  wf st → filter (λ kv : string * list string, kv.2 ≠ []) (rooms st) = rooms st.
Proof.
  intros Hwf. apply map_filter_id. intros r ms Hm. simpl.
  eapply wf_nonempty; eauto.
Qed.

Lemma wf_cleanup (st : state) (now : Z) : wf st → wf (cleanupInterval st now).1.
Proof.
  intros Hwf. unfold cleanupInterval.
  pose proof (wf_fold_reap now (userProfiles st) (st, []) Hwf) as Hwf1.
  destruct (fold_left (reap now) (userProfiles st) (st, [])) as [st1 acts].
  simpl in *. eapply wf_ext; [| |exact Hwf1]; simpl; [|reflexivity].
  apply wf_sweep_id, Hwf1.
Qed.

Lemma wf_step (st : state) (now : Z) (i : input) : wf st → wf (step st now i).1.
Proof.
  intros Hwf. destruct i; simpl.
  - eapply wf_ext; [| |exact Hwf]; reflexivity.
  - apply wf_room_join, Hwf.
  - unfold on_outgoing_call.
    repeat match goal with |- context [if ?b then _ else _] => destruct b end;
      try destruct (field "to" msg); exact Hwf.
  - unfold on_call_accepted.
    repeat match goal with |- context [if ?b then _ else _] => destruct b end;
      try destruct (field "to" msg); exact Hwf.
  - unfold on_ice_candidate.
    repeat match goal with |- context [if ?b then _ else _] => destruct b end;
      exact Hwf.
  - unfold on_call_ended.
    destruct (field "to" msg); try exact Hwf.
    destruct (truthy _); exact Hwf.
  - eapply wf_ext; [| |exact Hwf]; reflexivity.
  - eapply wf_ext; [| |exact Hwf]; reflexivity.
  - apply wf_disconnect, Hwf.
  - apply wf_cleanup, Hwf.
Qed.

Lemma wf_run (trace : list (Z * input)) (st : state) : wf st → wf (run st trace).1.
Proof.
  revert st. induction trace as [|[now i] rest IH]; intros st Hwf; simpl;
    [assumption|].
  pose proof (wf_step st now i Hwf) as H1.
  destruct (step st now i) as [st1 acts1].
  pose proof (IH st1 H1) as H2.
  destruct (run st1 rest) as [st2 acts2]. exact H2.
Qed.

Lemma reachable_wf (st : state) : reachable st → wf st.
Proof. intros [trace <-]. apply wf_run, wf_init. Qed.

Lemma run_app (t1 t2 : list (Z * input)) (st : state) :
  run st (t1 ++ t2) =
    let '(st1, a1) := run st t1 in
    let '(st2, a2) := run st1 t2 in (st2, a1 ++ a2).
Proof.
  revert st. induction t1 as [|[now i] t1 IH]; intros st; simpl.
  - destruct (run st t2). reflexivity.
  - destruct (step st now i) as [st1 a1]. rewrite IH.
    destruct (run st1 t1) as [st2 a2]. destruct (run st2 t2) as [st3 a3].
    now rewrite app_assoc.
Qed.

Lemma reachable_run (st : state) (trace : list (Z * input)) :
  reachable st → reachable (run st trace).1.
Proof.
  intros [t0 <-]. exists (t0 ++ trace). rewrite run_app.
  destruct (run init t0) as [st1 a1]. simpl.
  destruct (run st1 trace). reflexivity.
Qed.

(** ** Capacity *)

Lemma reachable_pairState : reachable pairState.
Proof. exists pairTrace. reflexivity. Defined.

Lemma reachable_threeState : reachable threeState.
Proof. exists threeTrace. reflexivity. Defined.

Lemma trim_empty_raw (raw : string) : trim raw ≠ EmptyString → raw ≠ EmptyString.
Proof. intros H ->. now apply H. Qed.

Lemma room_join_full (st : state) (now : Z) (sid : string) (msg : payload)
    (raw : string) (ms : list string) :
  field "roomId" msg = VStr raw →
  toLowerCase (trim raw) ≠ EmptyString →
  rooms st !! toLowerCase (trim raw) = Some ms →
  (2 ≤ length ms)%nat → sid ∉ ms →
  on_room_join st now sid msg = (st, [roomFull sid]).
Proof.
  intros Hf Hkey Hm Hlen Hnotin. unfold on_room_join. rewrite Hf.
  assert (Htrim : trim raw ≠ EmptyString) by (intros E; rewrite E in Hkey; now apply Hkey).
  assert (Hv : negb (truthy (VStr raw)) || (String.length (trim raw) =? 0)%nat = false).
  { apply orb_false_intro.
    - simpl. rewrite (eqb_empty_false _ (trim_empty_raw _ Htrim)). reflexivity.
    - apply Nat.eqb_neq. destruct (trim raw); [congruence | discriminate]. }
  rewrite Hv. unfold roomIsFull. rewrite Hm.
  apply set_has_false in Hnotin. rewrite Hnotin.
  apply Nat.leb_le in Hlen. rewrite Hlen. reflexivity.
Qed.

(** C1. In every state the server can reach, and after any further
    sequence of inputs, no room holds more than 2 members; and a
    [room:join] by a connection that is not one of the 2 members of the
    target room is answered with the RoomFull error alone and leaves the
    whole state, hence the membership of every room, as it was. *)
Theorem room_capacity (st : state) :
  reachable st →
  (∀ trace r ms, rooms (run st trace).1 !! r = Some ms → (length ms ≤ 2)%nat)
  ∧ (∀ now sid msg raw ms,
       field "roomId" msg = VStr raw →
       rooms st !! toLowerCase (trim raw) = Some ms →
       length ms = 2%nat → sid ∉ ms →
       on_room_join st now sid msg = (st, [roomFull sid])).
Proof.
  intros Hr. split.
  - intros trace r ms Hm.
    eapply wf_capacity; [|exact Hm]. apply reachable_wf, reachable_run, Hr.
  - intros now sid msg raw ms Hf Hm Hlen Hnotin.
    eapply room_join_full; eauto; [|lia].
    eapply wf_key; [apply reachable_wf, Hr | exact Hm].
Qed.

Lemma room_capacity_witness :
  rooms pairState !! "demo" = Some ["a"; "b"]
  ∧ on_room_join pairState 9 "c" (joinMsg " DEMO") = (pairState, [roomFull "c"]).
Proof.
  split; [reflexivity|].
  apply (proj2 (room_capacity pairState reachable_pairState)
           9 "c" (joinMsg " DEMO") " DEMO" ["a"; "b"]);
    [reflexivity | reflexivity | reflexivity |].
  intros H. repeat (apply elem_of_cons in H as [H|H]; [discriminate H|]).
  inversion H.
Defined.

(** ** Order of the capacity check and the implicit leave *)

(** C4, as stated, fails: [c], a member of [old], asks for the full room
    [demo]; the join is rejected with RoomFull and [c] is still in [old]. *)
Lemma rejected_join_keeps_previous_room :
  ¬ leaveBeforeCapacityCheck threeState 6 "c" (joinMsg "DEMO").
Proof.
  intros H. specialize (H "old" eq_refl eq_refl). vm_compute in H. discriminate H.
Qed.

(** C4, amended. The capacity check comes first: a join that fails it
    is answered with RoomFull and changes nothing, so the connection is
    still mapped to, and a member of, the room it was in; a join that
    passes it performs the implicit leave, after which the connection is a
    member of the target room only. *)
Theorem capacity_check_precedes_leave
    (st : state) (now : Z) (sid : string) (msg : payload) (raw old : string) :
  reachable st →
  field "roomId" msg = VStr raw →
  trim raw ≠ EmptyString →
  socketToRoom st !! sid = Some old →
  (roomIsFull st sid (toLowerCase (trim raw)) = true →
     on_room_join st now sid msg = (st, [roomFull sid])
     ∧ ∃ ms, rooms st !! old = Some ms ∧ sid ∈ ms)
  ∧ (roomIsFull st sid (toLowerCase (trim raw)) = false →
     let st' := (on_room_join st now sid msg).1 in
     socketToRoom st' !! sid = Some (toLowerCase (trim raw))
     ∧ ∀ r ms, rooms st' !! r = Some ms → sid ∈ ms → r = toLowerCase (trim raw)).
Proof.
  intros Hr Hf Htrim Hold. pose proof (reachable_wf _ Hr) as Hwf.
  assert (Hv : negb (truthy (VStr raw)) || (String.length (trim raw) =? 0)%nat = false).
  { apply orb_false_intro.
    - simpl. rewrite (eqb_empty_false _ (trim_empty_raw _ Htrim)). reflexivity.
    - apply Nat.eqb_neq. destruct (trim raw); [congruence | discriminate]. }
  split.
  - intros Hfull. split; [|eapply wf_room; eauto].
    unfold on_room_join. rewrite Hf, Hv, Hfull. reflexivity.
  - intros Hfull st'.
    pose proof (wf_room_join st now sid msg Hwf) as Hwf'. fold st' in Hwf'.
    assert (Hs : socketToRoom st' !! sid = Some (toLowerCase (trim raw))).
    { subst st'. unfold on_room_join. rewrite Hf, Hv, Hfull.
      destruct (leaveCurrentRoom st sid) as [[st1 lefts] o]. simpl.
      apply lookup_insert_eq. }
    split; [exact Hs|].
    intros r ms Hm Hin. pose proof (wf_member _ Hwf' _ _ _ Hm Hin). congruence.
Qed.

Lemma capacity_check_precedes_leave_witness :
  on_room_join threeState 6 "c" (joinMsg "DEMO") = (threeState, [roomFull "c"])
  ∧ ∃ ms, rooms threeState !! "old" = Some ms ∧ "c" ∈ ms.
Proof.
  apply (proj1 (capacity_check_precedes_leave threeState 6 "c" (joinMsg "DEMO")
                  "DEMO" "old" reachable_threeState eq_refl
                  ltac:(discriminate) eq_refl)).
  reflexivity.
Defined.

(** ** Canonical room key *)

(** Within code units below 256: raw room ids that differ only by letter
    case or by surrounding white space have the same canonical key (trim,
    then lower case); [room:join] does the same whichever of the two it is
    sent, and an accepted join maps the connection to the room under that
    key. *)
Lemma join_canonical_room (s1 s2 : string) :
  sameUpToCaseAndPadding s1 s2 →
  toLowerCase (trim s1) = toLowerCase (trim s2)
  ∧ (∀ st now sid m1 m2,
       field "roomId" m1 = VStr s1 → field "roomId" m2 = VStr s2 →
       on_room_join st now sid m1 = on_room_join st now sid m2)
  ∧ (∀ st now sid m1,
       field "roomId" m1 = VStr s1 → trim s1 ≠ EmptyString →
       roomIsFull st sid (toLowerCase (trim s1)) = false →
       let st' := (on_room_join st now sid m1).1 in
       socketToRoom st' !! sid = Some (toLowerCase (trim s2))
       ∧ ∃ ms, rooms st' !! toLowerCase (trim s2) = Some ms ∧ sid ∈ ms).
Proof.
  intros Hsame. pose proof (cleanRoomId_canonical _ _ Hsame) as Hkey.
  assert (Hlen : String.length (trim s1) = String.length (trim s2)).
  { rewrite <- (toLowerCase_length (trim s1)), Hkey. apply toLowerCase_length. }
  assert (Htruthy : ∀ s, (negb (truthy (VStr s)) || (String.length (trim s) =? 0)%nat)
                         = (String.length (trim s) =? 0)%nat).
  { intros s. destruct s; reflexivity. }
  split; [exact Hkey|]. split.
  - intros st now sid m1 m2 H1 H2. unfold on_room_join.
    rewrite H1, H2, !Htruthy, Hlen, Hkey. reflexivity.
  - intros st now sid m1 H1 Htrim Hfull st'. subst st'.
    rewrite <- Hkey. unfold on_room_join. rewrite H1, Htruthy.
    assert ((String.length (trim s1) =? 0)%nat = false) as ->.
    { apply Nat.eqb_neq. destruct (trim s1); [congruence | discriminate]. }
    rewrite Hfull.
    destruct (leaveCurrentRoom st sid) as [[st1 lefts] o]. simpl.
    split; [apply lookup_insert_eq|].
    rewrite lookup_insert_eq. eexists. split; [reflexivity|].
    apply elem_of_set_add. now left.
Qed.

(** ** Signaling router *)

Lemma reachable_apartState : reachable apartState.
Proof. exists apartTrace. reflexivity. Defined.

Lemma wf_sameRoom (st : state) (a b : string) :
  wf st →
  sameRoom st a b ↔
  ∃ r, socketToRoom st !! a = Some r ∧ socketToRoom st !! b = Some r.
Proof.
  intros Hwf. split.
  - intros (r & ms & Hm & Ha & Hb). exists r.
    split; eapply wf_member; eauto.
  - intros (r & Ha & Hb).
    destruct (wf_room _ Hwf _ _ Ha) as (ms & Hm & Hina).
    destruct (wf_room _ Hwf _ _ Hb) as (ms' & Hm' & Hinb).
    exists r, ms. split; [assumption|]. split; [assumption|]. congruence.
Qed.

Lemma wf_mapped_key (st : state) (sid r : string) :
  wf st → socketToRoom st !! sid = Some r → r ≠ EmptyString.
Proof.
  intros Hwf Hs. destruct (wf_room _ Hwf _ _ Hs) as (ms & Hm & _).
  eapply wf_key; eauto.
Qed.

(** C2. An [outgoing:call] whose destination and offer are present: when
    the sender and the destination are not members of the same room, the
    sender is sent the PeersNotColocated error and that is the only emit, so
    no other connection, the destination included, receives anything; when
    they are members of the same room, the offer is relayed to the
    destination as [incoming:call], and that is what the destination
    receives. *)
Theorem outgoing_call_colocation
    (st : state) (now : Z) (sid : string) (msg : payload) :
  reachable st →
  truthy (field "to" msg) = true →
  truthy (field "offer" msg) = true →
  ((∀ to, field "to" msg = VStr to → ¬ sameRoom st sid to) →
     on_outgoing_call st now sid msg = (st, [notColocated sid])
     ∧ ∀ other, other ≠ sid → inbox other (on_outgoing_call st now sid msg).2 = [])
  ∧ (∀ to, field "to" msg = VStr to → sameRoom st sid to →
     on_outgoing_call st now sid msg =
       (st, [Emit (SocketTo sid (VStr to))
               (EvIncomingCall sid (field "offer" msg) now)])
     ∧ (to ≠ sid →
        inbox to (on_outgoing_call st now sid msg).2 =
          [EvIncomingCall sid (field "offer" msg) now])).
Proof.
  intros Hr Hto Hoffer. pose proof (reachable_wf _ Hr) as Hwf.
  assert (Hguard : negb (truthy (field "to" msg))
                   || negb (truthy (field "offer" msg)) = false).
  { rewrite Hto, Hoffer. reflexivity. }
  split.
  - intros Hapart.
    assert (Hout : on_outgoing_call st now sid msg = (st, [notColocated sid])).
    { unfold on_outgoing_call. rewrite Hguard.
      destruct (socketToRoom st !! sid) as [r|] eqn:Hs; [|reflexivity].
      rewrite (eqb_empty_false _ (wf_mapped_key _ _ _ Hwf Hs)). cbn [negb andb].
      destruct (bool_decide (roomOf st (field "to" msg) = Some r)) eqn:Hb;
        [|reflexivity].
      apply bool_decide_eq_true in Hb. exfalso.
      destruct (field "to" msg) as [| | | |to|]; try discriminate Hb.
      apply (Hapart to eq_refl). apply wf_sameRoom; eauto. }
    split; [exact Hout|]. intros other Hother. rewrite Hout.
    unfold inbox, notColocated. cbn [snd]. rewrite filter_cons, filter_nil.
    destruct (decide (receives other _ = true)) as [Hrec|]; [|reflexivity].
    simpl in Hrec. apply bool_decide_eq_true in Hrec. congruence.
  - intros to Hfield Hsame.
    apply (wf_sameRoom _ _ _ Hwf) in Hsame as (r & Hs & Ht).
    assert (Hout : on_outgoing_call st now sid msg =
              (st, [Emit (SocketTo sid (VStr to))
                      (EvIncomingCall sid (field "offer" msg) now)])).
    { unfold on_outgoing_call. rewrite Hguard, Hfield. simpl. rewrite Hs, Ht.
      rewrite (eqb_empty_false _ (wf_mapped_key _ _ _ Hwf Hs)).
      rewrite bool_decide_eq_true_2 by reflexivity. reflexivity. }
    split; [exact Hout|]. intros Hdistinct. rewrite Hout.
    unfold inbox. cbn [snd]. rewrite filter_cons, filter_nil.
    destruct (decide (receives to _ = true)) as [|Hrec]; [reflexivity|].
    exfalso. apply Hrec. simpl.
    rewrite bool_decide_eq_true_2 by reflexivity.
    rewrite bool_decide_eq_false_2 by congruence. reflexivity.
Qed.

Lemma outgoing_call_colocation_witness :
  on_outgoing_call apartState 7 "a" (offerMsg "b") = (apartState, [notColocated "a"])
  ∧ inbox "b" (on_outgoing_call pairState 7 "a" (offerMsg "b")).2 =
      [EvIncomingCall "a" (VObj "sdp-offer") 7].
Proof.
  split.
  - apply (proj1 (outgoing_call_colocation apartState 7 "a" (offerMsg "b")
                    reachable_apartState eq_refl eq_refl)).
    intros to [= <-] (r & ms & Hm & Ha & Hb).
    assert (Hwf := reachable_wf _ reachable_apartState).
    pose proof (wf_member _ Hwf _ _ _ Hm Ha) as H1.
    pose proof (wf_member _ Hwf _ _ _ Hm Hb) as H2.
    vm_compute in H1, H2. congruence.
  - apply (proj2 (outgoing_call_colocation pairState 7 "a" (offerMsg "b")
                    reachable_pairState eq_refl eq_refl) "b" eq_refl).
    + exists "demo", ["a"; "b"]. split; [reflexivity|].
      split; [now left | right; now left].
    + discriminate.
Defined.

(** C3. The code at the input that separates it from the claim: [a] sits
    in room [demo], [b] in room [other], and [a] sends [call:accepted] for
    [b]; the answer is relayed to [b] and no error is sent to [a]. *)
Theorem call_accepted_ignores_rooms :
  ¬ sameRoom apartState "a" "b"
  ∧ on_call_accepted apartState 7 "a" (answerMsg "b") =
      (apartState, [Emit (SocketTo "a" (VStr "b"))
                      (EvCallAccepted "a" (VObj "sdp-answer") 7)])
  ∧ inbox "b" (on_call_accepted apartState 7 "a" (answerMsg "b")).2 =
      [EvCallAccepted "a" (VObj "sdp-answer") 7]
  ∧ inbox "a" (on_call_accepted apartState 7 "a" (answerMsg "b")).2 = [].
Proof.
  split; [|split; [reflexivity | split; reflexivity]].
  intros (r & ms & Hm & Ha & Hb).
  assert (Hwf := reachable_wf _ reachable_apartState).
  pose proof (wf_member _ Hwf _ _ _ Hm Ha) as H1.
  pose proof (wf_member _ Hwf _ _ _ Hm Hb) as H2.
  vm_compute in H1, H2. congruence.
Qed.

(** C7. Every signaling event a relaying handler emits ([incoming:call],
    [call:accepted], [ice:candidate], [call:ended]) carries the id of the
    connection the handler runs for in its [from] field and is addressed
    with [socket.to]; and the handler's result is the same whatever [from]
    property the inbound message carries. *)
Theorem relayed_from_is_sender
    (k : relay) (st : state) (now : Z) (sid : string) (msg : payload)
    (tgt : target) (e : event) (from : string) :
  Emit tgt e ∈ (on_relay k st now sid msg).2 →
  relayedFrom e = Some from →
  from = sid
  ∧ (∃ to, tgt = SocketTo sid to)
  ∧ ∀ forged, on_relay k st now sid (<["from" := forged]> msg)
              = on_relay k st now sid msg.
Proof.
  intros Hin Hfrom. split; [|split].
  - destruct k; simpl in Hin;
      [unfold on_outgoing_call in Hin | unfold on_call_accepted in Hin
      | unfold on_ice_candidate in Hin | unfold on_call_ended in Hin];
      repeat match type of Hin with
             | context [if ?b then _ else _] => destruct b
             | context [match ?v with VUndefined => _ | _ => _ end] => destruct v
             end; simpl in Hin;
      repeat (apply elem_of_cons in Hin as [Hin|Hin];
              [injection Hin as -> ->; simpl in Hfrom; congruence|]);
      inversion Hin.
  - destruct k; simpl in Hin;
      [unfold on_outgoing_call in Hin | unfold on_call_accepted in Hin
      | unfold on_ice_candidate in Hin | unfold on_call_ended in Hin];
      repeat match type of Hin with
             | context [if ?b then _ else _] => destruct b
             | context [match ?v with VUndefined => _ | _ => _ end] => destruct v
             end; simpl in Hin;
      repeat (apply elem_of_cons in Hin as [Hin|Hin];
              [injection Hin as -> ->; simpl in Hfrom;
               first [discriminate Hfrom | eexists; reflexivity]|]);
      inversion Hin.
  - intros forged.
    assert (Hfield : ∀ key, key ≠ "from" →
              field key (<["from" := forged]> msg) = field key msg).
    { intros key Hkey. unfold field. rewrite lookup_insert_ne by congruence.
      reflexivity. }
    destruct k; simpl;
      [unfold on_outgoing_call | unfold on_call_accepted
      | unfold on_ice_candidate | unfold on_call_ended];
      rewrite ?Hfield by discriminate; reflexivity.
Qed.

Lemma relayed_from_is_sender_witness :
  "a" = "a"
  ∧ (∃ to, SocketTo "a" (VStr "b") = SocketTo "a" to)
  ∧ ∀ forged,
      on_relay RelayOffer pairState 7 "a" (<["from" := forged]> (offerMsg "b"))
      = on_relay RelayOffer pairState 7 "a" (offerMsg "b").
Proof.
  apply (relayed_from_is_sender RelayOffer pairState 7 "a" (offerMsg "b")
           (SocketTo "a" (VStr "b")) (EvIncomingCall "a" (VObj "sdp-offer") 7) "a").
  - vm_compute. left.
  - reflexivity.
Defined.

(** The guard of [ice:candidate], once the message is destructured: a
    candidate or a destination that is null, absent or otherwise falsy
    makes the handler return with the state as it was and no emit. *)
Lemma ice_candidate_silent_drop
    (st : state) (now : Z) (sid : string) (msg : payload) :
  truthy (field "candidate" msg) = false ∨ truthy (field "to" msg) = false →
  on_ice_candidate st now sid msg = (st, []).
Proof.
  intros H. unfold on_ice_candidate.
  destruct H as [-> | ->]; [reflexivity|].
  rewrite orb_true_r. reflexivity.
Qed.

(** ** Presence notifier *)

Lemma pair_set_delete (ms : list string) (sid peer : string) :
  NoDup ms → (length ms ≤ 2)%nat → sid ∈ ms → peer ∈ ms → peer ≠ sid →
  set_delete sid ms = [peer].
Proof.
  intros Hnd Hlen Hs Hp Hne. unfold set_delete.
  destruct ms as [|x [|y [|z ms]]]; simpl in Hlen; try lia.
  - inversion Hs.
  - apply list_elem_of_singleton in Hs, Hp. congruence.
  - apply NoDup_cons in Hnd as [Hxy _].
    assert (x ≠ y) by (intros ->; apply Hxy; now left).
    apply elem_of_cons in Hs as [->|Hs%list_elem_of_singleton];
      apply elem_of_cons in Hp as [->|Hp%list_elem_of_singleton];
      subst; try congruence.
    + rewrite filter_cons_False by tauto.
      rewrite filter_cons_True by congruence. reflexivity.
    + rewrite filter_cons_True by congruence.
      rewrite filter_cons_False by tauto. reflexivity.
Qed.

Lemma single_set_delete (sid : string) : set_delete sid [sid] = [].
Proof. unfold set_delete. rewrite filter_cons_False by tauto. reflexivity. Qed.

Lemma inbox_io_to (who : string) (e : event) (acts : list action) :
  inbox who (Emit (IoTo who) e :: acts) = e :: inbox who acts.
Proof.
  unfold inbox. rewrite filter_cons_True; [reflexivity|].
  simpl. apply bool_decide_eq_true. reflexivity.
Qed.

Lemma inbox_to_other (who sid : string) (e : event) (acts : list action) :
  sid ≠ who → inbox who (Emit (ToSocket sid) e :: acts) = inbox who acts.
Proof.
  intros Hne. unfold inbox. rewrite filter_cons_False; [reflexivity|].
  simpl. rewrite bool_decide_eq_false_2 by assumption. discriminate.
Qed.

(** C5, as stated, fails on disconnect: [b] disconnects from the room it
    shares with [a], and [a] receives a [user:left] and a
    [user:disconnected]. *)
Lemma disconnect_notifies_twice :
  ¬ oneDepartureNotice "a" (on_disconnect pairState 4 "b" "transport close").2.
Proof. unfold oneDepartureNotice. vm_compute. discriminate. Qed.

(** C5, amended. A connection [sid] in a room with one peer: when it
    leaves (room switch, idle reaper) the peer receives exactly one
    departure notification, a [user:left]; when it disconnects the peer
    receives a [user:left] followed by a [user:disconnected]; either way
    the room persists with the peer as its one member.  A connection alone
    in its room: when it leaves or disconnects nothing is emitted and the
    room is gone from the table. *)
Theorem departure_notifications
    (st : state) (now : Z) (sid r reason : string) (ms : list string) :
  reachable st →
  rooms st !! r = Some ms → sid ∈ ms →
  (∀ peer, peer ∈ ms → peer ≠ sid →
     (leaveCurrentRoom st sid).1.2 = [Emit (IoTo peer) (EvUserLeft sid r 1)]
     ∧ departureNotices peer (leaveCurrentRoom st sid).1.2 = [EvUserLeft sid r 1]
     ∧ rooms (leaveCurrentRoom st sid).1.1 !! r = Some [peer]
     ∧ (on_disconnect st now sid reason).2 =
         [Emit (IoTo peer) (EvUserLeft sid r 1);
          Emit (IoTo peer) (EvUserDisconnected sid r reason now)]
     ∧ departureNotices peer (on_disconnect st now sid reason).2 =
         [EvUserLeft sid r 1; EvUserDisconnected sid r reason now]
     ∧ rooms (on_disconnect st now sid reason).1 !! r = Some [peer])
  ∧ (ms = [sid] →
     (leaveCurrentRoom st sid).1.2 = []
     ∧ rooms (leaveCurrentRoom st sid).1.1 !! r = None
     ∧ (on_disconnect st now sid reason).2 = []
     ∧ rooms (on_disconnect st now sid reason).1 !! r = None).
Proof.
  intros Hr Hm Hin. pose proof (reachable_wf _ Hr) as Hwf.
  pose proof (wf_member _ Hwf _ _ _ Hm Hin) as Hs.
  pose proof (wf_key _ Hwf _ _ Hm) as Hkey.
  pose proof (leave_mapped _ _ _ _ Hkey Hs Hm) as Hleave.
  unfold on_disconnect, unregister. rewrite Hleave. unfold roomsAfterLeave.
  cbn [fst snd].
  split.
  - intros peer Hp Hne.
    rewrite (pair_set_delete ms sid peer (wf_nodup _ Hwf _ _ Hm)
               (wf_capacity _ Hwf _ _ Hm) Hin Hp Hne).
    cbn [rooms socketToRoom userProfiles map length].
    rewrite lookup_insert_eq. cbn [Nat.ltb Nat.leb map app length].
    unfold departureNotices. rewrite !inbox_io_to.
    repeat split; reflexivity.
  - intros ->. rewrite single_set_delete.
    cbn [rooms socketToRoom userProfiles map length].
    rewrite lookup_delete_eq. repeat split; reflexivity.
Qed.

Lemma departure_notifications_witness :
  departureNotices "a" (on_disconnect pairState 4 "b" "transport close").2 =
    [EvUserLeft "b" "demo" 1; EvUserDisconnected "b" "demo" "transport close" 4]
  ∧ rooms (on_disconnect pairState 4 "b" "transport close").1 !! "demo" = Some ["a"].
Proof.
  assert (Hb : "b" ∈ ["a"; "b"]) by (right; now left).
  assert (Ha : "a" ∈ ["a"; "b"]) by now left.
  destruct (proj1 (departure_notifications pairState 4 "b" "demo" "transport close"
                     ["a"; "b"] reachable_pairState eq_refl Hb)
              "a" Ha ltac:(discriminate))
    as (_ & _ & _ & _ & H1 & H2).
  split; assumption.
Defined.

(** C10. A connection [sid] that shares room [r] with a peer and sends
    [room:join] for [r] again: the join goes through ([sid] is a member of
    [r] afterwards and is sent [room:joined]), and the peer receives a
    [user:left] for [sid], with the member count 1 of the moment [sid] was
    out of the room, followed by a [user:joined] for [sid]. *)
Theorem rejoin_notifies_peer
    (st : state) (now : Z) (sid peer : string) (msg : payload)
    (raw r : string) (ms : list string) :
  reachable st →
  field "roomId" msg = VStr raw → toLowerCase (trim raw) = r →
  rooms st !! r = Some ms → sid ∈ ms → peer ∈ ms → peer ≠ sid →
  ∃ st' info,
    on_room_join st now sid msg =
      (st', [Emit (IoTo peer) (EvUserLeft sid r 1);
             Emit (ToSocket sid) (EvUserJoined peer r info);
             Emit (IoTo peer) (EvUserJoined sid r info);
             Emit (ToSocket sid) (EvRoomJoined info)])
    ∧ info = getRoomInfo st' r
    ∧ rooms st' !! r = Some [peer; sid]
    ∧ socketToRoom st' !! sid = Some r
    ∧ inbox peer (on_room_join st now sid msg).2 =
        [EvUserLeft sid r 1; EvUserJoined sid r info].
Proof.
  intros Hr Hf Hraw Hm Hin Hp Hne. pose proof (reachable_wf _ Hr) as Hwf.
  pose proof (wf_member _ Hwf _ _ _ Hm Hin) as Hs.
  pose proof (wf_key _ Hwf _ _ Hm) as Hkey.
  assert (Htrim : trim raw ≠ EmptyString) by (intros E; rewrite E in Hraw; subst r; now apply Hkey).
  assert (Hv : negb (truthy (VStr raw)) || (String.length (trim raw) =? 0)%nat = false).
  { apply orb_false_intro.
    - simpl. rewrite (eqb_empty_false _ (trim_empty_raw _ Htrim)). reflexivity.
    - apply Nat.eqb_neq. destruct (trim raw); [congruence | discriminate]. }
  assert (Hfull : roomIsFull st sid r = false).
  { unfold roomIsFull. rewrite Hm. apply set_has_true in Hin. rewrite Hin.
    apply andb_false_r. }
  assert (Hadd : set_add sid [peer] = [peer; sid]).
  { unfold set_add. rewrite (proj2 (set_has_false sid [peer])); [reflexivity|].
    intros ->%list_elem_of_singleton. congruence. }
  assert (Hothers : filter (λ id, id ≠ sid) [peer; sid] = [peer]).
  { rewrite filter_cons_True by assumption.
    rewrite filter_cons_False by tauto. reflexivity. }
  unfold on_room_join. rewrite Hf, Hv, Hraw, Hfull.
  rewrite (leave_mapped _ _ _ _ Hkey Hs Hm). unfold roomsAfterLeave.
  rewrite (pair_set_delete ms sid peer (wf_nodup _ Hwf _ _ Hm)
             (wf_capacity _ Hwf _ _ Hm) Hin Hp Hne).
  cbn [rooms socketToRoom userProfiles map length].
  rewrite !lookup_insert_eq. cbn [default from_option id]. rewrite Hadd, Hothers.
  cbn [map app].
  eexists _, _. split; [reflexivity|].
  cbn [fst snd rooms socketToRoom].
  rewrite !lookup_insert_eq.
  split; [reflexivity|]. split; [reflexivity|]. split; [reflexivity|].
  rewrite inbox_io_to, inbox_to_other, inbox_io_to, inbox_to_other by congruence.
  reflexivity.
Qed.

Lemma rejoin_notifies_peer_witness :
  ∃ st' info,
    on_room_join pairState 4 "a" (joinMsg "demo") =
      (st', [Emit (IoTo "b") (EvUserLeft "a" "demo" 1);
             Emit (ToSocket "a") (EvUserJoined "b" "demo" info);
             Emit (IoTo "b") (EvUserJoined "a" "demo" info);
             Emit (ToSocket "a") (EvRoomJoined info)])
    ∧ info = getRoomInfo st' "demo"
    ∧ rooms st' !! "demo" = Some ["b"; "a"]
    ∧ socketToRoom st' !! "a" = Some "demo"
    ∧ inbox "b" (on_room_join pairState 4 "a" (joinMsg "demo")).2 =
        [EvUserLeft "a" "demo" 1; EvUserJoined "a" "demo" info].
Proof.
  apply (rejoin_notifies_peer pairState 4 "a" "b" (joinMsg "demo") "demo" "demo"
           ["a"; "b"] reachable_pairState eq_refl eq_refl eq_refl).
  - now left.
  - right; now left.
  - discriminate.
Defined.

(** ** Idle reaper *)

Lemma reachable_idleState : reachable idleState.
Proof. exists idleTrace. reflexivity. Defined.

Lemma profiles_get_elem (sid : string) (p : profile) (ps : list (string * profile)) :
  profiles_get sid ps = Some p → (sid, p) ∈ ps.
Proof.
  induction ps as [|[k q] ps IH]; simpl; [discriminate|].
  destruct (decide (k = sid)) as [->|Hne].
  - intros [= ->]. now left.
  - intros H. right. auto.
Qed.

Lemma profiles_get_delete (sid q : string) (ps : list (string * profile)) :
  sid = q ∨ profiles_get sid ps = None →
  profiles_get sid (profiles_delete q ps) = None.
Proof.
  unfold profiles_delete. induction ps as [|[k p] ps IH]; intros H; [reflexivity|].
  rewrite filter_cons. destruct (decide ((k, p).1 ≠ q)) as [Hk|Hk]; simpl in *.
  - destruct (decide (k = sid)) as [->|Hne].
    + destruct H as [->|H]; [congruence | discriminate].
    + apply IH. destruct H; auto.
  - apply IH. destruct H as [|H]; auto.
    destruct (decide (k = sid)); [discriminate | auto].
Qed.

(** The profile table plays no part in leaving a room: unregistering
    before or after the leave gives the same state and the same emits. *)
Lemma leave_unregister_commute (st : state) (sid q : string) :
  leaveCurrentRoom (unregister st q) sid =
    let '(st1, acts, o) := leaveCurrentRoom st sid in (unregister st1 q, acts, o).
Proof.
  unfold leaveCurrentRoom, unregister, cleanupRoom. simpl.
  destruct (socketToRoom st !! sid) as [r|]; [|reflexivity].
  destruct (String.eqb r EmptyString); [reflexivity|].
  destruct (rooms st !! r) as [ms|]; [|reflexivity]. simpl.
  rewrite !lookup_insert_eq.
  destruct (length (set_delete sid ms) =? 0)%nat; reflexivity.
Qed.

Lemma leave_profiles (st : state) (sid : string) :
  userProfiles (leaveCurrentRoom st sid).1.1 = userProfiles st.
Proof.
  unfold leaveCurrentRoom, cleanupRoom.
  destruct (socketToRoom st !! sid) as [r|]; [|reflexivity].
  destruct (String.eqb r EmptyString); [reflexivity|].
  destruct (rooms st !! r) as [ms|]; [|reflexivity]. simpl.
  rewrite !lookup_insert_eq.
  destruct (length (set_delete sid ms) =? 0)%nat; reflexivity.
Qed.

Lemma reap_stale (now : Z) (st : state) (acts : list action) (sid : string) (p : profile) :
  isStale now p = true →
  reap now (st, acts) (sid, p) =
    ((leaveCurrentRoom (unregister st sid) sid).1.1,
     acts ++ (leaveCurrentRoom (unregister st sid) sid).1.2).
Proof.
  intros H. unfold reap. rewrite H.
  destruct (leaveCurrentRoom (unregister st sid) sid) as [[st2 lefts] o].
  reflexivity.
Qed.

Lemma reap_fresh (now : Z) (acc : state * list action) (sid : string) (p : profile) :
  isStale now p = false → reap now acc (sid, p) = acc.
Proof. intros H. destruct acc. unfold reap. rewrite H. reflexivity. Qed.

Lemma wf_unregister (st : state) (sid : string) : wf st → wf (unregister st sid).
Proof. intros H. eapply wf_ext; [| |exact H]; reflexivity. Qed.

Lemma reap_acts_mono (now : Z) (acc : state * list action) (e : string * profile) (a : action) :
  a ∈ acc.2 → a ∈ (reap now acc e).2.
Proof.
  destruct acc as [st acts], e as [q pq]. intros Ha.
  destruct (isStale now pq) eqn:Hq.
  - rewrite reap_stale by assumption. simpl. apply elem_of_app. now left.
  - rewrite reap_fresh by assumption. exact Ha.
Qed.

Lemma fold_reap_acts_mono (now : Z) (entries : list (string * profile))
    (acc : state * list action) (a : action) :
  a ∈ acc.2 → a ∈ (fold_left (reap now) entries acc).2.
Proof.
  revert acc. induction entries as [|e entries IH]; intros acc Ha; simpl;
    [assumption|].
  apply IH, reap_acts_mono, Ha.
Qed.

Lemma leave_keeps_unmapped (st : state) (sid q : string) :
  wf st → socketToRoom st !! sid = None →
  socketToRoom (leaveCurrentRoom st q).1.1 !! sid = None.
Proof.
  intros Hwf Hs. destruct (socketToRoom st !! q) as [r|] eqn:Hq.
  - destruct (wf_room _ Hwf _ _ Hq) as (ms & Hm & _).
    rewrite (leave_mapped _ _ _ _ (wf_key _ Hwf _ _ Hm) Hq Hm). simpl.
    destruct (decide (q = sid)) as [->|Hne];
      [apply lookup_delete_eq | rewrite lookup_delete_ne by assumption; exact Hs].
  - rewrite leave_unmapped by assumption. exact Hs.
Qed.

Lemma reap_gone (now : Z) (acc : state * list action) (e : string * profile) (sid : string) :
  wf acc.1 → gone acc.1 sid → gone (reap now acc e).1 sid.
Proof.
  destruct acc as [st acts], e as [q pq]. cbn [fst]. intros Hwf [Hp Hs].
  destruct (isStale now pq) eqn:Hq.
  - rewrite reap_stale by assumption. cbn [fst]. split.
    + rewrite leave_profiles. simpl. apply profiles_get_delete. now right.
    + apply leave_keeps_unmapped; [apply wf_unregister, Hwf | exact Hs].
  - rewrite reap_fresh by assumption. now split.
Qed.

Lemma fold_reap_gone (now : Z) (entries : list (string * profile))
    (acc : state * list action) (sid : string) :
  wf acc.1 → gone acc.1 sid → gone (fold_left (reap now) entries acc).1 sid.
Proof.
  revert acc. induction entries as [|e entries IH]; intros acc Hwf Hg; simpl;
    [assumption|].
  apply IH; [apply wf_reap, Hwf | apply reap_gone; assumption].
Qed.

Lemma fold_reap_evicts (now : Z) (sid : string) (p : profile)
    (entries : list (string * profile)) (acc : state * list action) :
  wf acc.1 → (sid, p) ∈ entries → isStale now p = true →
  gone (fold_left (reap now) entries acc).1 sid.
Proof.
  revert acc. induction entries as [|e entries IH]; intros acc Hwf Hin Hp;
    [inversion Hin|].
  simpl. apply elem_of_cons in Hin as [<-|Hin].
  - apply fold_reap_gone; [apply wf_reap, Hwf|].
    destruct acc as [st acts]. rewrite reap_stale by assumption. simpl in *. split.
    + rewrite leave_profiles. simpl. apply profiles_get_delete. now left.
    + apply wf_leave_unmaps, wf_unregister, Hwf.
  - apply IH; [apply wf_reap, Hwf | assumption | assumption].
Qed.

(** While [sid] waits for its turn in the sweep, it stays mapped to its
    room and a peer that is not evicted stays a member of that room. *)
Lemma reap_other_keeps_pair (now : Z) (st : state) (acts : list action)
    (q : string) (pq : profile) (sid peer r : string) :
  wf st → q ≠ sid → (isStale now pq = true → q ≠ peer) →
  socketToRoom st !! sid = Some r →
  (∃ ms, rooms st !! r = Some ms ∧ peer ∈ ms) →
  socketToRoom (reap now (st, acts) (q, pq)).1 !! sid = Some r
  ∧ ∃ ms, rooms (reap now (st, acts) (q, pq)).1 !! r = Some ms ∧ peer ∈ ms.
Proof.
  intros Hwf Hqs Hqp Hs (ms & Hm & Hp).
  destruct (isStale now pq) eqn:Hq; [|rewrite reap_fresh by assumption; eauto].
  specialize (Hqp eq_refl).
  rewrite reap_stale by assumption. cbn [fst].
  rewrite leave_unregister_commute.
  destruct (socketToRoom st !! q) as [r'|] eqn:Hq'.
  - destruct (wf_room _ Hwf _ _ Hq') as (ms' & Hm' & Hin').
    rewrite (leave_mapped _ _ _ _ (wf_key _ Hwf _ _ Hm') Hq' Hm'). simpl.
    split; [rewrite lookup_delete_ne by assumption; exact Hs|].
    rewrite roomsAfterLeave_lookup.
    destruct (decide (r = r')) as [<-|Hrr]; [|eauto].
    assert (ms' = ms) as -> by congruence.
    assert (peer ∈ set_delete q ms) as Hpd by (apply elem_of_set_delete; auto).
    destruct (decide (set_delete q ms = [])) as [E|E]; [|eauto].
    rewrite E in Hpd. inversion Hpd.
  - rewrite leave_unmapped by assumption. simpl. eauto.
Qed.

Lemma fold_reap_notifies (now : Z) (sid : string) (p : profile) (peer r : string)
    (entries : list (string * profile)) (acc : state * list action) :
  wf acc.1 → (sid, p) ∈ entries → isStale now p = true →
  (∀ q pq, (q, pq) ∈ entries → isStale now pq = true → q ≠ peer) →
  peer ≠ sid →
  socketToRoom acc.1 !! sid = Some r →
  (∃ ms, rooms acc.1 !! r = Some ms ∧ peer ∈ ms) →
  Emit (IoTo peer) (EvUserLeft sid r 1) ∈ (fold_left (reap now) entries acc).2.
Proof.
  revert acc. induction entries as [|[q pq] entries IH];
    intros [st acts] Hwf Hin Hp Hfresh Hne Hs Hroom; [inversion Hin|].
  simpl in Hwf, Hs, Hroom. cbn [fold_left].
  assert (Hrest : ∀ q' pq', (q', pq') ∈ entries → isStale now pq' = true → q' ≠ peer).
  { intros q' pq' H. apply Hfresh. now right. }
  destruct (isStale now pq) eqn:Hq.
  - destruct (decide (q = sid)) as [->|Hqs].
    + (* the turn of [sid] *)
      apply fold_reap_acts_mono.
      rewrite reap_stale by assumption. cbn [snd].
      rewrite leave_unregister_commute.
      destruct Hroom as (ms & Hm & Hpeer).
      destruct (wf_room _ Hwf _ _ Hs) as (ms' & Hm' & Hsid).
      assert (ms' = ms) as -> by congruence.
      rewrite (leave_mapped _ _ _ _ (wf_key _ Hwf _ _ Hm) Hs Hm). cbn [fst snd].
      rewrite (pair_set_delete ms sid peer (wf_nodup _ Hwf _ _ Hm)
                 (wf_capacity _ Hwf _ _ Hm) Hsid Hpeer Hne).
      apply elem_of_app. right. now left.
    + (* another stale connection goes first *)
      assert (Hq' : isStale now pq = true → q ≠ peer)
        by (apply Hfresh; now left).
      destruct (reap_other_keeps_pair now st acts q pq sid peer r
                  Hwf Hqs Hq' Hs Hroom) as [Hs' Hroom'].
      apply IH; try assumption.
      * apply (wf_reap now (st, acts) (q, pq)), Hwf.
      * apply elem_of_cons in Hin as [[= -> ->]|Hin]; [congruence | assumption].
  - rewrite reap_fresh by assumption.
    apply IH; try assumption.
    apply elem_of_cons in Hin as [[= -> ->]|Hin]; [congruence | assumption].
Qed.

(** C9. A tracked connection whose last activity lies more than the
    inactivity threshold before [now]: its turn in the sweep amounts to a
    leave followed by an unregister (the code unregisters first, which
    gives the same state and emits); after one sweep it is no longer
    tracked, no longer mapped to a room nor a member of one; and if it
    shared a room with a peer that the sweep does not itself evict, the
    peer is sent the [user:left] of a normal departure. *)
Theorem reaper_evicts_stale (st : state) (now : Z) (sid : string) (p : profile) :
  reachable st →
  profiles_get sid (userProfiles st) = Some p →
  now - lastActivity p > maxInactiveTime →
  (∀ st0 acts0,
     reap now (st0, acts0) (sid, p) =
       let '(st1, lefts, _) := leaveCurrentRoom st0 sid in
       (unregister st1 sid, acts0 ++ lefts))
  ∧ profiles_get sid (userProfiles (cleanupInterval st now).1) = None
  ∧ socketToRoom (cleanupInterval st now).1 !! sid = None
  ∧ (∀ r ms, rooms (cleanupInterval st now).1 !! r = Some ms → sid ∉ ms)
  ∧ (∀ r ms peer,
       rooms st !! r = Some ms → sid ∈ ms → peer ∈ ms → peer ≠ sid →
       ¬ evicted now st peer →
       Emit (IoTo peer) (EvUserLeft sid r 1) ∈ (cleanupInterval st now).2).
Proof.
  intros Hr Hget Hold. pose proof (reachable_wf _ Hr) as Hwf.
  assert (Hstale : isStale now p = true) by (unfold isStale; apply Z.ltb_lt; lia).
  pose proof (profiles_get_elem _ _ _ Hget) as Hin.
  pose proof (wf_cleanup st now Hwf) as Hwf'.
  pose proof (fold_reap_evicts now sid p (userProfiles st) (st, []) Hwf Hin Hstale)
    as [Hgone1 Hgone2].
  assert (Hacts : (cleanupInterval st now).2
                  = (fold_left (reap now) (userProfiles st) (st, [])).2).
  { unfold cleanupInterval. destruct (fold_left _ _ _). reflexivity. }
  assert (Hs2r : socketToRoom (cleanupInterval st now).1
                 = socketToRoom (fold_left (reap now) (userProfiles st) (st, [])).1).
  { unfold cleanupInterval. destruct (fold_left _ _ _). reflexivity. }
  assert (Hprof : userProfiles (cleanupInterval st now).1
                  = userProfiles (fold_left (reap now) (userProfiles st) (st, [])).1).
  { unfold cleanupInterval. destruct (fold_left _ _ _). reflexivity. }
  split; [|split; [|split; [|split]]].
  - intros st0 acts0. rewrite reap_stale by assumption.
    rewrite leave_unregister_commute.
    destruct (leaveCurrentRoom st0 sid) as [[st1 lefts] o]. reflexivity.
  - rewrite Hprof. exact Hgone1.
  - rewrite Hs2r. exact Hgone2.
  - intros r ms Hm Hsid. pose proof (wf_member _ Hwf' _ _ _ Hm Hsid) as Hmap.
    rewrite Hs2r, Hgone2 in Hmap. discriminate.
  - intros r ms peer Hm Hsid Hpeer Hne Hkept. rewrite Hacts.
    apply (fold_reap_notifies now sid p peer r); try assumption.
    + intros q pq Hq Hqstale ->. apply Hkept. exists pq. auto.
    + eapply wf_member; eauto.
    + eauto.
Qed.

Lemma reaper_evicts_stale_witness :
  profiles_get "a" (userProfiles (cleanupInterval idleState 1800003).1) = None
  ∧ Emit (IoTo "b") (EvUserLeft "a" "demo" 1) ∈ (cleanupInterval idleState 1800003).2.
Proof.
  destruct (reaper_evicts_stale idleState 1800003 "a"
              {| connectedAt := 0; lastActivity := 2;
                 currentRoom := Some "demo"; activity := None |}
              reachable_idleState eq_refl eq_refl)
    as (_ & Hgone & _ & _ & Hnotify).
  split; [exact Hgone|].
  apply (Hnotify "demo" ["a"; "b"] "b"); [reflexivity | now left | right; now left
                                          | discriminate |].
  intros (pq & Hin & Hstale). vm_compute in Hin.
  apply elem_of_cons in Hin as [Hin|Hin]; [discriminate Hin|].
  apply elem_of_cons in Hin as [Hin|Hin]; [|inversion Hin].
  injection Hin as Hpq. rewrite Hpq in Hstale. vm_compute in Hstale.
  discriminate Hstale.
Defined.

(** ** End-to-end scenario *)

(** [a] joins [Demo] and [b] joins [demo ] with a trailing space: one room,
    [demo].  [a] calls [b], [b] accepts, [b] disconnects (the room stays,
    with [a]), then [a] disconnects (the room is deleted). *)
Example end_to_end :
  let '(st1, _) := run init pairTrace in
  let '(st2, calls) :=
    run st1 [(4, OutgoingCall "a" (offerMsg "b"));
             (5, CallAccepted "b" (answerMsg "a"))] in
  let '(st3, bye1) := step st2 6 (Disconnect "b" "transport close") in
  let '(st4, bye2) := step st3 7 (Disconnect "a" "transport close") in
  rooms st1 !! "demo" = Some ["a"; "b"]
  ∧ inbox "b" calls = [EvIncomingCall "a" (VObj "sdp-offer") 4]
  ∧ inbox "a" calls = [EvCallAccepted "b" (VObj "sdp-answer") 5]
  ∧ inbox "a" bye1 = [EvUserLeft "b" "demo" 1;
                      EvUserDisconnected "b" "demo" "transport close" 6]
  ∧ rooms st3 !! "demo" = Some ["a"]
  ∧ bye2 = []
  ∧ st4 = init.
Proof. vm_compute. repeat split; reflexivity. Qed.

(** * Further properties of the server *)

(** ** Validation of the room id *)

Section NormalisationMore.

Local Open Scope string_scope.

Lemma trimStart_empty_blank (s : string) : trimStart s = EmptyString → blank s = true.
Proof.
  induction s as [|c s IH]; simpl; [reflexivity|].
  destruct (isWhiteSpace c); [exact IH | discriminate].
Qed.

Lemma trimEnd_empty_blank (s : string) : trimEnd s = EmptyString → blank s = true.
Proof.
  induction s as [|c s IH]; simpl; [reflexivity|].
  destruct (trimEnd s); [|discriminate].
  destruct (isWhiteSpace c); [intros _; simpl; auto | discriminate].
Qed.

(** [trimStart] stops at a character that is not white space. *)
Lemma trimStart_fixed (s : string) : trimStart (trimStart s) = trimStart s.
Proof.
  induction s as [|c s IH]; simpl; [reflexivity|].
  destruct (isWhiteSpace c) eqn:E; [exact IH|]. simpl. rewrite E. reflexivity.
Qed.

Lemma trim_empty_blank (s : string) : trim s = EmptyString ↔ blank s = true.
Proof.
  unfold trim. split.
  - intros H%trimEnd_empty_blank%trimStart_blank.
    rewrite trimStart_fixed in H. apply trimStart_empty_blank, H.
  - intros H. rewrite (trimStart_blank _ H). reflexivity.
Qed.

Lemma trimEnd_fixed (s : string) : trimEnd (trimEnd s) = trimEnd s.
Proof.
  induction s as [|c s IH]; simpl; [reflexivity|].
  destruct (trimEnd s) as [|d t] eqn:E.
  - destruct (isWhiteSpace c) eqn:Ec; [reflexivity|]. simpl. rewrite Ec. reflexivity.
  - simpl in IH |- *. destruct (trimEnd t) as [|d' t'] eqn:Et.
    + destruct (isWhiteSpace d) eqn:Ed; [discriminate IH|]. congruence.
    + rewrite IH. reflexivity.
Qed.

(** Trimming the end keeps a first character that is not white space. *)
Lemma trimStart_trimEnd (s : string) :
  trimStart s = s → trimStart (trimEnd s) = trimEnd s.
Proof.
  destruct s as [|c s]; [reflexivity|]. simpl.
  destruct (isWhiteSpace c) eqn:Ec.
  - intros H. exfalso.
    assert (Hlen : (String.length (trimStart s) <= String.length s)%nat).
    { clear. induction s as [|d s IH]; simpl; [lia|].
      destruct (isWhiteSpace d); simpl; lia. }
    rewrite H in Hlen. simpl in Hlen. lia.
  - intros _. destruct (trimEnd s); simpl; rewrite Ec; reflexivity.
Qed.

Lemma trim_fixed (s : string) : trim (trim s) = trim s.
Proof.
  unfold trim. rewrite (trimStart_trimEnd _ (trimStart_fixed s)).
  apply trimEnd_fixed.
Qed.

Lemma lowerChar_facts (c : ascii) :
  lowerChar (lowerChar c) = lowerChar c
  ∧ isWhiteSpace (lowerChar c) = isWhiteSpace c.
Proof.
  destruct c as [[] [] [] [] [] [] [] []]; vm_compute; split; reflexivity.
Qed.

Lemma toLowerCase_fixed (s : string) : toLowerCase (toLowerCase s) = toLowerCase s.
Proof.
  induction s as [|c s IH]; simpl; [reflexivity|].
  rewrite (proj1 (lowerChar_facts c)), IH. reflexivity.
Qed.

Lemma toLowerCase_trimStart (s : string) :
  trimStart (toLowerCase s) = toLowerCase (trimStart s).
Proof.
  induction s as [|c s IH]; simpl; [reflexivity|].
  rewrite (proj2 (lowerChar_facts c)).
  destruct (isWhiteSpace c); [exact IH | reflexivity].
Qed.

Lemma toLowerCase_trimEnd (s : string) :
  trimEnd (toLowerCase s) = toLowerCase (trimEnd s).
Proof.
  induction s as [|c s IH]; simpl; [reflexivity|].
  rewrite IH, (proj2 (lowerChar_facts c)).
  destruct (trimEnd s); simpl; [|reflexivity].
  destruct (isWhiteSpace c); reflexivity.
Qed.

Lemma toLowerCase_trim (s : string) : trim (toLowerCase s) = toLowerCase (trim s).
Proof. unfold trim. rewrite toLowerCase_trimStart. apply toLowerCase_trimEnd. Qed.

End NormalisationMore.

Lemma valid_guard (raw : string) :
  negb (truthy (VStr raw)) || (String.length (trim raw) =? 0)%nat = blank raw.
Proof.
  destruct (blank raw) eqn:Hb.
  - apply trim_empty_blank in Hb. rewrite Hb. apply orb_true_r.
  - assert (Htrim : trim raw ≠ EmptyString).
    { intros E%trim_empty_blank. congruence. }
    apply orb_false_intro.
    + simpl. rewrite (eqb_empty_false _ (trim_empty_raw _ Htrim)). reflexivity.
    + apply Nat.eqb_neq. destruct (trim raw); [congruence | discriminate].
Qed.

(** The body of [room:join] answers with the InvalidRoom error alone, and
    leaves the state as it was, exactly when the [roomId] of the message
    object is not a string (absent, null, a number, an object) or is a
    string made of white space only, the empty string included. *)
Lemma room_join_invalid_id (st : state) (now : Z) (sid : string) (msg : payload) :
  on_room_join st now sid msg = (st, [invalidRoom sid])
  ↔ (∀ raw, field "roomId" msg = VStr raw → blank raw = true).
Proof.
  unfold on_room_join, invalidRoom. split.
  - intros Hout raw Hf. rewrite Hf, valid_guard in Hout.
    destruct (blank raw); [reflexivity|]. exfalso.
    destruct (roomIsFull st sid (toLowerCase (trim raw))); [discriminate Hout|].
    destruct (leaveCurrentRoom st sid) as [[st1 lefts] o].
    injection Hout as _ Hacts. rewrite app_assoc in Hacts.
    apply (app_inj_tail _ []) in Hacts as [_ Hlast]. discriminate Hlast.
  - intros Hblank. destruct (field "roomId" msg) as [| | | |raw|]; try reflexivity.
    rewrite valid_guard, (Hblank raw eq_refl). reflexivity.
Qed.

(** X2. The canonical key is a fixed point of the normalisation: it has
    no surrounding white space and no upper-case letter left, so a
    [room:join] sent with the key the server reports behaves as the join
    with the raw id did. *)
Theorem cleanRoomId_idempotent (raw : string) :
  cleanRoomId (cleanRoomId raw) = cleanRoomId raw
  ∧ trim (cleanRoomId raw) = cleanRoomId raw
  ∧ toLowerCase (cleanRoomId raw) = cleanRoomId raw
  ∧ ∀ st now sid m1 m2,
      field "roomId" m1 = VStr raw → field "roomId" m2 = VStr (cleanRoomId raw) →
      on_room_join st now sid m1 = on_room_join st now sid m2.
Proof.
  unfold cleanRoomId.
  assert (Htrim : trim (toLowerCase (trim raw)) = toLowerCase (trim raw)).
  { rewrite toLowerCase_trim, trim_fixed. reflexivity. }
  assert (Hkey : toLowerCase (trim (toLowerCase (trim raw))) = toLowerCase (trim raw)).
  { rewrite Htrim. apply toLowerCase_fixed. }
  split; [exact Hkey|]. split; [exact Htrim|]. split; [apply toLowerCase_fixed|].
  intros st now sid m1 m2 H1 H2. unfold on_room_join.
  rewrite H1, H2, !valid_guard, Hkey.
  replace (blank (toLowerCase (trim raw))) with (blank raw); [reflexivity|].
  destruct (blank raw) eqn:Hb; symmetry.
  - apply trim_empty_blank in Hb. rewrite Hb. reflexivity.
  - destruct (blank (toLowerCase (trim raw))) eqn:Hb'; [|reflexivity].
    apply trim_empty_blank in Hb'. rewrite Htrim in Hb'.
    apply toLowerCase_empty, trim_empty_blank in Hb'. congruence.
Qed.

Lemma cleanRoomId_idempotent_witness :
  on_room_join pairState 9 "c" (joinMsg " DEMO ")
  = on_room_join pairState 9 "c" (joinMsg "demo").
Proof.
  apply (proj2 (proj2 (proj2 (cleanRoomId_idempotent " DEMO ")))
           pairState 9 "c" (joinMsg " DEMO ") (joinMsg "demo"));
    reflexivity.
Defined.

(** ** Membership bookkeeping *)

(** X3. In every reachable state [socketToRoom] and [rooms] agree: a
    connection is mapped to room [r] exactly when it is in the member set
    of [r]; hence no connection is a member of two rooms; and the table
    holds no empty room and no member twice. *)
Theorem membership_consistent (st : state) :
  reachable st →
  (∀ sid r,
     socketToRoom st !! sid = Some r ↔ ∃ ms, rooms st !! r = Some ms ∧ sid ∈ ms)
  ∧ (∀ sid r1 r2 ms1 ms2,
       rooms st !! r1 = Some ms1 → sid ∈ ms1 →
       rooms st !! r2 = Some ms2 → sid ∈ ms2 → r1 = r2)
  ∧ (∀ r ms, rooms st !! r = Some ms → ms ≠ [] ∧ NoDup ms).
Proof.
  intros Hr. pose proof (reachable_wf _ Hr) as Hwf. split; [|split].
  - intros sid r. split; [apply (wf_room _ Hwf)|].
    intros (ms & Hm & Hin). eapply wf_member; eauto.
  - intros sid r1 r2 ms1 ms2 H1 Hin1 H2 Hin2.
    pose proof (wf_member _ Hwf _ _ _ H1 Hin1).
    pose proof (wf_member _ Hwf _ _ _ H2 Hin2). congruence.
  - intros r ms Hm. split; [eapply wf_nonempty | eapply wf_nodup]; eauto.
Qed.

Lemma membership_consistent_witness :
  socketToRoom threeState !! "c" = Some "old"
  ↔ ∃ ms, rooms threeState !! "old" = Some ms ∧ "c" ∈ ms.
Proof.
  exact (proj1 (membership_consistent threeState reachable_threeState) "c" "old").
Defined.

Lemma leave_rooms_keys (st : state) (sid r : string) (ms' : list string) :
  wf st → rooms (leaveCurrentRoom st sid).1.1 !! r = Some ms' →
  ∃ ms, rooms st !! r = Some ms.
Proof.
  intros Hwf. destruct (socketToRoom st !! sid) as [r0|] eqn:Hs.
  - destruct (wf_room _ Hwf _ _ Hs) as (ms & Hm & Hin).
    rewrite (leave_mapped _ _ _ _ (wf_key _ Hwf _ _ Hm) Hs Hm). simpl.
    rewrite roomsAfterLeave_lookup.
    destruct (decide (r = r0)) as [->|Hne]; [eauto|]. eauto.
  - rewrite leave_unmapped by assumption. simpl. eauto.
Qed.

Lemma canonical_leave (st : state) (sid : string) :
  wf st → canonicalKeys st → canonicalKeys (leaveCurrentRoom st sid).1.1.
Proof.
  intros Hwf Hc r ms' Hm'.
  destruct (leave_rooms_keys st sid r ms' Hwf Hm') as (ms & Hm). eauto.
Qed.

Lemma canonical_ext (st st' : state) :
  rooms st' = rooms st → canonicalKeys st → canonicalKeys st'.
Proof. unfold canonicalKeys. intros ->. auto. Qed.

Lemma canonical_room_join (st : state) (now : Z) (sid : string) (msg : payload) :
  wf st → canonicalKeys st → canonicalKeys (on_room_join st now sid msg).1.
Proof.
  intros Hwf Hc.
  pose proof (canonical_leave st sid Hwf Hc) as Hc1.
  unfold on_room_join.
  destruct (field "roomId" msg) as [| | | |raw|]; try exact Hc.
  destruct (negb (truthy (VStr raw)) || _); [exact Hc|].
  destruct (roomIsFull st sid (toLowerCase (trim raw))); [exact Hc|].
  destruct (leaveCurrentRoom st sid) as [[st1 lefts] o]. simpl in Hc1.
  unfold canonicalKeys. cbn [fst rooms].
  intros r ms. destruct (decide (r = toLowerCase (trim raw))) as [->|Hne].
  - intros _. apply (proj1 (cleanRoomId_idempotent raw)).
  - rewrite lookup_insert_ne by congruence.
    destruct (rooms st1 !! toLowerCase (trim raw));
      [|rewrite lookup_insert_ne by congruence]; apply Hc1.
Qed.

Lemma canonical_fold_reap (now : Z) (entries : list (string * profile))
    (acc : state * list action) :
  wf acc.1 → canonicalKeys acc.1 →
  canonicalKeys (fold_left (reap now) entries acc).1.
Proof.
  revert acc. induction entries as [|[q pq] entries IH]; intros [st acts] Hwf Hc;
    [exact Hc|].
  cbn [fold_left]. apply IH; [apply (wf_reap now (st, acts) (q, pq)), Hwf|].
  destruct (isStale now pq) eqn:Hq.
  - rewrite reap_stale by assumption. cbn [fst].
    apply canonical_leave; [apply wf_unregister, Hwf|].
    eapply canonical_ext; [|exact Hc]. reflexivity.
  - rewrite reap_fresh by assumption. exact Hc.
Qed.

Lemma canonical_step (st : state) (now : Z) (i : input) :
  wf st → canonicalKeys st → canonicalKeys (step st now i).1.
Proof.
  intros Hwf Hc. destruct i; simpl.
  - exact Hc.
  - apply canonical_room_join; assumption.
  - unfold on_outgoing_call.
    repeat match goal with |- context [if ?b then _ else _] => destruct b end;
      try destruct (field "to" msg); exact Hc.
  - unfold on_call_accepted.
    repeat match goal with |- context [if ?b then _ else _] => destruct b end;
      try destruct (field "to" msg); exact Hc.
  - unfold on_ice_candidate.
    repeat match goal with |- context [if ?b then _ else _] => destruct b end;
      exact Hc.
  - unfold on_call_ended.
    destruct (field "to" msg); try exact Hc. destruct (truthy _); exact Hc.
  - exact Hc.
  - exact Hc.
  - unfold on_disconnect.
    pose proof (canonical_leave st sid Hwf Hc) as Hc1.
    destruct (leaveCurrentRoom st sid) as [[st1 lefts] o]. exact Hc1.
  - unfold cleanupInterval.
    pose proof (canonical_fold_reap now (userProfiles st) (st, []) Hwf Hc) as Hc1.
    destruct (fold_left (reap now) (userProfiles st) (st, [])) as [st1 acts].
    simpl in *. intros r ms [Hm _]%map_lookup_filter_Some. eauto.
Qed.

Lemma canonical_run (trace : list (Z * input)) (st : state) :
  wf st → canonicalKeys st → canonicalKeys (run st trace).1.
Proof.
  revert st. induction trace as [|[now i] rest IH]; intros st Hwf Hc; simpl;
    [assumption|].
  pose proof (wf_step st now i Hwf) as H1.
  pose proof (canonical_step st now i Hwf Hc) as H2.
  destruct (step st now i) as [st1 acts1].
  pose proof (IH st1 H1 H2) as H3.
  destruct (run st1 rest) as [st2 acts2]. exact H3.
Qed.

(** X4. Room keys are always normalised: in every reachable state each
    key of the room table, and each room a connection is mapped to, is a
    non-empty string equal to its own canonical form (trimmed, lower
    case). *)
Theorem room_keys_canonical (st : state) :
  reachable st →
  (∀ r ms, rooms st !! r = Some ms → r ≠ EmptyString ∧ cleanRoomId r = r)
  ∧ (∀ sid r, socketToRoom st !! sid = Some r → r ≠ EmptyString ∧ cleanRoomId r = r).
Proof.
  intros Hr. pose proof (reachable_wf _ Hr) as Hwf.
  assert (Hc : canonicalKeys st).
  { destruct Hr as [trace <-]. apply canonical_run; [apply wf_init|].
    intros r ms H. simpl in H. rewrite lookup_empty in H. discriminate. }
  assert (H1 : ∀ r ms, rooms st !! r = Some ms → r ≠ EmptyString ∧ cleanRoomId r = r).
  { intros r ms Hm. split; [eapply wf_key | eapply Hc]; eauto. }
  split; [exact H1|].
  intros sid r Hs. destruct (wf_room _ Hwf _ _ Hs) as (ms & Hm & _). eauto.
Qed.

Lemma room_keys_canonical_witness :
  "demo" ≠ EmptyString ∧ cleanRoomId "demo" = "demo".
Proof.
  exact (proj1 (room_keys_canonical threeState reachable_threeState)
           "demo" ["a"; "b"] eq_refl).
Defined.

(** X5. Leaving is idempotent and harmless for a connection that is in no
    room: [leaveCurrentRoom] for an unmapped connection returns null with
    the state untouched and nothing emitted, and in a reachable state a
    second leave right after a first is such a call. *)
Theorem leave_idempotent (st : state) (sid : string) :
  reachable st →
  (socketToRoom st !! sid = None → leaveCurrentRoom st sid = (st, [], None))
  ∧ leaveCurrentRoom (leaveCurrentRoom st sid).1.1 sid
    = ((leaveCurrentRoom st sid).1.1, [], None).
Proof.
  intros Hr. split; [apply leave_unmapped|].
  apply leave_unmapped, wf_leave_unmaps, reachable_wf, Hr.
Qed.

Lemma leave_idempotent_witness :
  leaveCurrentRoom (leaveCurrentRoom pairState "a").1.1 "a"
  = ((leaveCurrentRoom pairState "a").1.1, [], None).
Proof. exact (proj2 (leave_idempotent pairState "a" reachable_pairState)). Defined.

(** ** The idle reaper and active connections *)

Lemma profiles_get_delete_ne (x q : string) (ps : list (string * profile)) :
  q ≠ x → profiles_get x (profiles_delete q ps) = profiles_get x ps.
Proof.
  intros Hne. unfold profiles_delete. induction ps as [|[k p] ps IH]; [reflexivity|].
  rewrite filter_cons. destruct (decide ((k, p).1 ≠ q)) as [Hk|Hk]; simpl in *.
  - rewrite IH. reflexivity.
  - destruct (decide (k = x)) as [->|_]; [|exact IH].
    exfalso. apply Hk. congruence.
Qed.

Lemma leave_other_mapping (st : state) (q x : string) :
  wf st → q ≠ x →
  socketToRoom (leaveCurrentRoom st q).1.1 !! x = socketToRoom st !! x.
Proof.
  intros Hwf Hne. destruct (socketToRoom st !! q) as [r|] eqn:Hq.
  - destruct (wf_room _ Hwf _ _ Hq) as (ms & Hm & _).
    rewrite (leave_mapped _ _ _ _ (wf_key _ Hwf _ _ Hm) Hq Hm). simpl.
    apply lookup_delete_ne, Hne.
  - rewrite leave_unmapped by assumption. reflexivity.
Qed.

(** A connection the sweep does not evict keeps its profile and its room
    mapping through every iteration. *)
Lemma fold_reap_spares (now : Z) (x : string) (entries : list (string * profile))
    (acc : state * list action) :
  wf acc.1 →
  (∀ q pq, (q, pq) ∈ entries → isStale now pq = true → q ≠ x) →
  profiles_get x (userProfiles (fold_left (reap now) entries acc).1)
    = profiles_get x (userProfiles acc.1)
  ∧ socketToRoom (fold_left (reap now) entries acc).1 !! x = socketToRoom acc.1 !! x.
Proof.
  revert acc. induction entries as [|[q pq] entries IH]; intros [st acts] Hwf Hfresh;
    [split; reflexivity|].
  cbn [fold_left].
  assert (Hrest : ∀ q' pq', (q', pq') ∈ entries → isStale now pq' = true → q' ≠ x).
  { intros q' pq' H. apply Hfresh. now right. }
  destruct (IH (reap now (st, acts) (q, pq))
              (wf_reap now (st, acts) (q, pq) Hwf) Hrest) as [IH1 IH2].
  rewrite IH1, IH2. clear IH IH1 IH2.
  destruct (isStale now pq) eqn:Hq; [|rewrite reap_fresh by assumption; split; reflexivity].
  assert (Hqx : q ≠ x) by (apply (Hfresh q pq); [now left | assumption]).
  rewrite reap_stale by assumption. cbn [fst]. split.
  - rewrite leave_profiles. simpl. apply profiles_get_delete_ne, Hqx.
  - rewrite leave_other_mapping; [reflexivity | apply wf_unregister, Hwf | exact Hqx].
Qed.

Lemma fold_reap_fresh (now : Z) (entries : list (string * profile))
    (acc : state * list action) :
  (∀ q pq, (q, pq) ∈ entries → isStale now pq = false) →
  fold_left (reap now) entries acc = acc.
Proof.
  revert acc. induction entries as [|[q pq] entries IH]; intros acc Hfresh;
    [reflexivity|].
  cbn [fold_left]. rewrite reap_fresh by (apply (Hfresh q pq); now left).
  apply IH. intros q' pq' H. apply (Hfresh q' pq'). now right.
Qed.

Lemma cleanup_projections (st : state) (now : Z) :
  userProfiles (cleanupInterval st now).1
    = userProfiles (fold_left (reap now) (userProfiles st) (st, [])).1
  ∧ socketToRoom (cleanupInterval st now).1
    = socketToRoom (fold_left (reap now) (userProfiles st) (st, [])).1.
Proof.
  unfold cleanupInterval. destruct (fold_left _ _ _). split; reflexivity.
Qed.

Lemma sweep_spares (st : state) (now : Z) (x : string) :
  wf st → ¬ evicted now st x →
  profiles_get x (userProfiles (cleanupInterval st now).1)
    = profiles_get x (userProfiles st)
  ∧ socketToRoom (cleanupInterval st now).1 !! x = socketToRoom st !! x.
Proof.
  intros Hwf Hkept. destruct (cleanup_projections st now) as [-> ->].
  apply (fold_reap_spares now x (userProfiles st) (st, []) Hwf).
  intros q pq Hin Hstale ->. apply Hkept. exists pq. auto.
Qed.

(** X6. A sweep that finds no stale profile does nothing: in a reachable
    state where every tracked connection was active within the threshold,
    [cleanupInterval] returns the state as it was and emits nothing; in
    particular its pass over empty rooms deletes none. *)
Theorem sweep_without_stale_is_noop (st : state) (now : Z) :
  reachable st →
  (∀ sid p, (sid, p) ∈ userProfiles st → now - lastActivity p ≤ maxInactiveTime) →
  cleanupInterval st now = (st, []).
Proof.
  intros Hr Hfresh. pose proof (reachable_wf _ Hr) as Hwf.
  unfold cleanupInterval. rewrite fold_reap_fresh.
  - rewrite (wf_sweep_id _ Hwf). destruct st. reflexivity.
  - intros q pq Hin. unfold isStale. apply Z.ltb_ge. eauto.
Qed.

Lemma sweep_without_stale_is_noop_witness :
  cleanupInterval idleState 1500000 = (idleState, []).
Proof.
  apply (sweep_without_stale_is_noop idleState 1500000 reachable_idleState).
  intros sid p Hin. vm_compute in Hin.
  apply elem_of_cons in Hin as [Hin|Hin];
    [injection Hin as _ ->; vm_compute; discriminate|].
  apply elem_of_cons in Hin as [Hin|Hin];
    [injection Hin as _ ->; vm_compute; discriminate|].
  inversion Hin.
Defined.

(** X7. The reaper never touches a connection it does not evict: a
    connection with no stale profile keeps its profile, its room mapping
    and its place in the member set of its room through a sweep. *)
Theorem sweep_spares_active (st : state) (now : Z) (x : string) :
  reachable st → ¬ evicted now st x →
  profiles_get x (userProfiles (cleanupInterval st now).1)
    = profiles_get x (userProfiles st)
  ∧ socketToRoom (cleanupInterval st now).1 !! x = socketToRoom st !! x
  ∧ (∀ r ms, rooms st !! r = Some ms → x ∈ ms →
       ∃ ms', rooms (cleanupInterval st now).1 !! r = Some ms' ∧ x ∈ ms').
Proof.
  intros Hr Hkept. pose proof (reachable_wf _ Hr) as Hwf.
  destruct (sweep_spares st now x Hwf Hkept) as [Hp Hs].
  split; [exact Hp|]. split; [exact Hs|].
  intros r ms Hm Hin. apply (wf_room _ (wf_cleanup st now Hwf)).
  rewrite Hs. eapply wf_member; eauto.
Qed.

Lemma sweep_spares_active_witness :
  socketToRoom (cleanupInterval idleState 1800003).1 !! "b" = Some "demo"
  ∧ ∃ ms', rooms (cleanupInterval idleState 1800003).1 !! "demo" = Some ms' ∧ "b" ∈ ms'.
Proof.
  assert (Hkept : ¬ evicted 1800003 idleState "b").
  { intros (pq & Hin & Hstale). vm_compute in Hin.
    apply elem_of_cons in Hin as [Hin|Hin]; [discriminate Hin|].
    apply elem_of_cons in Hin as [Hin|Hin]; [|inversion Hin].
    injection Hin as Hpq. rewrite Hpq in Hstale. vm_compute in Hstale.
    discriminate Hstale. }
  destruct (sweep_spares_active idleState 1800003 "b" reachable_idleState Hkept)
    as (_ & Hs & Hroom).
  split; [exact Hs|].
  apply (Hroom "demo" ["a"; "b"]); [reflexivity | right; now left].
Defined.

(** ** The profile table *)

Lemma profiles_get_None_keys (sid : string) (ps : list (string * profile)) :
  profiles_get sid ps = None ↔ sid ∉ ps.*1.
Proof.
  induction ps as [|[k p] ps IH]; simpl.
  - split; [intros _ H; inversion H | reflexivity].
  - destruct (decide (k = sid)) as [->|Hne].
    + split; [discriminate | intros H; exfalso; apply H; now left].
    + rewrite IH. rewrite not_elem_of_cons. split; [auto | tauto].
Qed.

Lemma profiles_replace_keys (sid : string) (p : profile) (ps : list (string * profile)) :
  (profiles_replace sid p ps).*1 = ps.*1.
Proof.
  induction ps as [|[k q] ps IH]; [reflexivity|]. cbn [profiles_replace].
  destruct (decide (k = sid)); rewrite !fmap_cons;
    [reflexivity | rewrite IH; reflexivity].
Qed.

Lemma profiles_get_replace (sid : string) (p q : profile) (ps : list (string * profile)) :
  profiles_get sid ps = Some q → profiles_get sid (profiles_replace sid p ps) = Some p.
Proof.
  induction ps as [|[k q'] ps IH]; simpl; [discriminate|].
  destruct (decide (k = sid)) as [->|Hne]; simpl.
  - intros _. rewrite decide_True by reflexivity. reflexivity.
  - intros H. rewrite decide_False by assumption. auto.
Qed.

Lemma profiles_get_replace_ne (sid x : string) (p : profile) (ps : list (string * profile)) :
  x ≠ sid → profiles_get x (profiles_replace sid p ps) = profiles_get x ps.
Proof.
  intros Hne. induction ps as [|[k q] ps IH]; simpl; [reflexivity|].
  destruct (decide (k = sid)) as [->|Hk]; simpl.
  - rewrite !decide_False by congruence. reflexivity.
  - destruct (decide (k = x)); [reflexivity | exact IH].
Qed.

Lemma profiles_get_set_ne (sid x : string) (p : profile) (ps : list (string * profile)) :
  x ≠ sid → profiles_get x (profiles_set sid p ps) = profiles_get x ps.
Proof.
  intros Hne. unfold profiles_set.
  destruct (profiles_get sid ps); [apply profiles_get_replace_ne, Hne|].
  induction ps as [|[k q] ps IH]; simpl.
  - rewrite decide_False by congruence. reflexivity.
  - destruct (decide (k = x)); [reflexivity | exact IH].
Qed.

Lemma profiles_delete_keys (sid : string) (ps : list (string * profile)) :
  NoDup ps.*1 → NoDup (profiles_delete sid ps).*1.
Proof.
  unfold profiles_delete. induction ps as [|[k p] ps IH]; [intros; constructor|].
  simpl. intros [Hk Hnd]%NoDup_cons. rewrite filter_cons.
  destruct (decide ((k, p).1 ≠ sid)); [|auto].
  simpl. apply NoDup_cons. split; [|auto].
  intros ((k' & p') & Hfst & Hin)%list_elem_of_fmap. simpl in Hfst. subst k'.
  apply list_elem_of_filter in Hin as [_ Hin]. apply Hk.
  apply list_elem_of_fmap. exists (k, p'). auto.
Qed.

Lemma profiles_delete_absent (sid : string) (ps : list (string * profile)) :
  profiles_get sid ps = None → profiles_delete sid ps = ps.
Proof.
  unfold profiles_delete. induction ps as [|[k p] ps IH]; [reflexivity|].
  simpl. destruct (decide (k = sid)) as [->|Hne]; [discriminate|].
  intros H. rewrite filter_cons_True by (simpl; assumption). rewrite IH by assumption.
  reflexivity.
Qed.

Lemma keysUnique_get (sid : string) (p : profile) (ps : list (string * profile)) :
  NoDup ps.*1 → (sid, p) ∈ ps → profiles_get sid ps = Some p.
Proof.
  induction ps as [|[k q] ps IH]; simpl; [intros _ H; inversion H|].
  intros [Hk Hnd]%NoDup_cons [[= <- <-]|Hin]%elem_of_cons.
  - rewrite decide_True by reflexivity. reflexivity.
  - destruct (decide (k = sid)) as [->|Hne]; [|auto].
    exfalso. apply Hk. apply list_elem_of_fmap. exists (sid, p). auto.
Qed.

Lemma keysUnique_leave (st : state) (sid : string) :
  keysUnique st → keysUnique (leaveCurrentRoom st sid).1.1.
Proof. unfold keysUnique. rewrite leave_profiles. auto. Qed.

Lemma keysUnique_fold_reap (now : Z) (entries : list (string * profile))
    (acc : state * list action) :
  keysUnique acc.1 → keysUnique (fold_left (reap now) entries acc).1.
Proof.
  revert acc. induction entries as [|[q pq] entries IH]; intros [st acts] Hk;
    [exact Hk|].
  cbn [fold_left]. apply IH.
  destruct (isStale now pq) eqn:Hq.
  - rewrite reap_stale by assumption. cbn [fst].
    apply keysUnique_leave. apply profiles_delete_keys, Hk.
  - rewrite reap_fresh by assumption. exact Hk.
Qed.

Lemma keysUnique_step (st : state) (now : Z) (i : input) :
  keysUnique st → keysUnique (step st now i).1.
Proof.
  unfold keysUnique. intros Hk. destruct i; simpl.
  - unfold profiles_set.
    destruct (profiles_get sid (userProfiles st)) eqn:Hg.
    + rewrite profiles_replace_keys. exact Hk.
    + rewrite fmap_app. apply NoDup_app. split; [exact Hk|]. split.
      * intros x Hx ->%list_elem_of_singleton.
        apply profiles_get_None_keys in Hg. contradiction.
      * apply NoDup_singleton.
  - unfold on_room_join.
    destruct (field "roomId" msg) as [| | | |raw|]; try exact Hk.
    destruct (negb (truthy (VStr raw)) || _); [exact Hk|].
    destruct (roomIsFull st sid (toLowerCase (trim raw))); [exact Hk|].
    pose proof (leave_profiles st sid) as Hp.
    destruct (leaveCurrentRoom st sid) as [[st1 lefts] o]. simpl in Hp |- *.
    rewrite Hp. destruct (profiles_get sid (userProfiles st));
      [rewrite profiles_replace_keys|]; exact Hk.
  - unfold on_outgoing_call.
    repeat match goal with |- context [if ?b then _ else _] => destruct b end;
      try destruct (field "to" msg); exact Hk.
  - unfold on_call_accepted.
    repeat match goal with |- context [if ?b then _ else _] => destruct b end;
      try destruct (field "to" msg); exact Hk.
  - unfold on_ice_candidate.
    repeat match goal with |- context [if ?b then _ else _] => destruct b end;
      exact Hk.
  - unfold on_call_ended.
    destruct (field "to" msg); try exact Hk. destruct (truthy _); exact Hk.
  - destruct (profiles_get sid (userProfiles st));
      [rewrite profiles_replace_keys|]; exact Hk.
  - destruct (profiles_get sid (userProfiles st));
      [rewrite profiles_replace_keys|]; exact Hk.
  - unfold on_disconnect.
    pose proof (leave_profiles st sid) as Hp.
    destruct (leaveCurrentRoom st sid) as [[st1 lefts] o]. simpl in Hp |- *.
    rewrite Hp. apply profiles_delete_keys, Hk.
  - destruct (cleanup_projections st now) as [-> _].
    apply (keysUnique_fold_reap now (userProfiles st) (st, [])), Hk.
Qed.

Lemma keysUnique_run (trace : list (Z * input)) (st : state) :
  keysUnique st → keysUnique (run st trace).1.
Proof.
  revert st. induction trace as [|[now i] rest IH]; intros st Hk; simpl;
    [assumption|].
  pose proof (keysUnique_step st now i Hk) as H1.
  destruct (step st now i) as [st1 acts1].
  pose proof (IH st1 H1) as H2.
  destruct (run st1 rest) as [st2 acts2]. exact H2.
Qed.

Lemma reachable_keysUnique (st : state) : reachable st → keysUnique st.
Proof. intros [trace <-]. apply keysUnique_run. constructor. Qed.

(** The profile table tracks each connection once: in every reachable
    state no connection id has two entries in [userProfiles], so the
    profile a lookup returns is the only one. *)
Lemma profiles_tracked_once (st : state) (now : Z) (sid : string) :
  reachable st →
  NoDup (userProfiles st).*1
  ∧ (∀ p, (sid, p) ∈ userProfiles st ↔ profiles_get sid (userProfiles st) = Some p)
  ∧ (evicted now st sid ↔
     ∃ p, profiles_get sid (userProfiles st) = Some p
          ∧ now - lastActivity p > maxInactiveTime).
Proof.
  intros Hr. pose proof (reachable_keysUnique _ Hr) as Hk.
  assert (Hget : ∀ p, (sid, p) ∈ userProfiles st
                      ↔ profiles_get sid (userProfiles st) = Some p).
  { intros p. split; [apply keysUnique_get, Hk | apply profiles_get_elem]. }
  split; [exact Hk|]. split; [exact Hget|].
  unfold evicted, isStale. split.
  - intros (p & Hin & Hs). exists p. split; [apply Hget, Hin|].
    apply Z.ltb_lt in Hs. lia.
  - intros (p & Hg & Hs). exists p. split; [apply Hget, Hg|].
    apply Z.ltb_lt. lia.
Qed.

(** X9. A ping keeps a connection alive: a tracked connection that pings
    at instant [t] is answered with a pong and has [t] as its last
    activity, and a sweep at any instant up to the inactivity threshold
    after [t] leaves it tracked, with that profile, and in its room. *)
Theorem ping_keeps_alive (st : state) (t now : Z) (sid : string) (p : profile) :
  reachable st →
  profiles_get sid (userProfiles st) = Some p →
  now - t ≤ maxInactiveTime →
  (on_ping st t sid).2 = [Emit (ToSocket sid) EvPong]
  ∧ profiles_get sid (userProfiles (on_ping st t sid).1) = Some (touch t None p)
  ∧ profiles_get sid (userProfiles (cleanupInterval (on_ping st t sid).1 now).1)
    = Some (touch t None p)
  ∧ socketToRoom (cleanupInterval (on_ping st t sid).1 now).1 !! sid
    = socketToRoom st !! sid.
Proof.
  intros Hr Hg Hnow.
  assert (Hr1 : reachable (on_ping st t sid).1)
    by (apply (reachable_run st [(t, Ping sid)]), Hr).
  assert (Hg1 : profiles_get sid (userProfiles (on_ping st t sid).1)
                = Some (touch t None p)).
  { simpl. rewrite Hg. eapply profiles_get_replace, Hg. }
  assert (Hkept : ¬ evicted now (on_ping st t sid).1 sid).
  { intros (q & Hin & Hs).
    apply (keysUnique_get _ _ _ (reachable_keysUnique _ Hr1)) in Hin.
    rewrite Hg1 in Hin. injection Hin as <-.
    unfold isStale in Hs. apply Z.ltb_lt in Hs. simpl in Hs. lia. }
  destruct (sweep_spares _ now sid (reachable_wf _ Hr1) Hkept) as [Hp Hs].
  split; [reflexivity|]. split; [exact Hg1|]. split; [congruence|].
  rewrite Hs. reflexivity.
Qed.

Lemma ping_keeps_alive_witness :
  profiles_get "a" (userProfiles (cleanupInterval (on_ping pairState 1000 "a").1 1801000).1)
  = Some {| connectedAt := 0; lastActivity := 1000;
            currentRoom := Some "demo"; activity := None |}.
Proof.
  destruct (ping_keeps_alive pairState 1000 1801000 "a"
              {| connectedAt := 0; lastActivity := 2;
                 currentRoom := Some "demo"; activity := None |}
              reachable_pairState eq_refl ltac:(vm_compute; discriminate))
    as (_ & _ & H & _).
  exact H.
Defined.

(** ** Disconnect *)

Lemma disconnect_mapped (st : state) (now : Z) (sid reason r : string) (ms : list string) :
  wf st → socketToRoom st !! sid = Some r → rooms st !! r = Some ms →
  on_disconnect st now sid reason =
    (unregister {| rooms := roomsAfterLeave st sid r ms;
                   socketToRoom := delete sid (socketToRoom st);
                   userProfiles := userProfiles st |} sid,
     map (λ other, Emit (IoTo other) (EvUserLeft sid r (length (set_delete sid ms))))
         (set_delete sid ms)
     ++ map (λ other, Emit (IoTo other) (EvUserDisconnected sid r reason now))
            (set_delete sid ms)).
Proof.
  intros Hwf Hs Hm. unfold on_disconnect.
  rewrite (leave_mapped _ _ _ _ (wf_key _ Hwf _ _ Hm) Hs Hm).
  cbn [unregister rooms]. rewrite roomsAfterLeave_lookup.
  rewrite decide_True by reflexivity.
  destruct (decide (set_delete sid ms = [])) as [E|E].
  - rewrite E. reflexivity.
  - destruct (set_delete sid ms) as [|x l]; [congruence|]. reflexivity.
Qed.

(** X10. A disconnect purges the connection: afterwards it is not
    tracked, not mapped to a room and in no member set; what the handler
    emits goes to the connections that shared the room with it, never to
    the departing connection itself. *)
Theorem disconnect_purges (st : state) (now : Z) (sid reason : string) :
  reachable st →
  profiles_get sid (userProfiles (on_disconnect st now sid reason).1) = None
  ∧ socketToRoom (on_disconnect st now sid reason).1 !! sid = None
  ∧ (∀ r ms, rooms (on_disconnect st now sid reason).1 !! r = Some ms → sid ∉ ms)
  ∧ (∀ tgt e, Emit tgt e ∈ (on_disconnect st now sid reason).2 →
       ∃ peer, tgt = IoTo peer ∧ peer ≠ sid ∧ sameRoom st sid peer).
Proof.
  intros Hr. pose proof (reachable_wf _ Hr) as Hwf.
  pose proof (wf_disconnect st now sid reason Hwf) as Hwf'.
  assert (Hun : socketToRoom (on_disconnect st now sid reason).1 !! sid = None).
  { unfold on_disconnect. pose proof (wf_leave_unmaps st sid Hwf) as H.
    destruct (leaveCurrentRoom st sid) as [[st1 lefts] o]. exact H. }
  split; [|split; [exact Hun|split]].
  - unfold on_disconnect. destruct (leaveCurrentRoom st sid) as [[st1 lefts] o].
    simpl. apply profiles_get_delete. now left.
  - intros r ms Hm Hin. rewrite (wf_member _ Hwf' _ _ _ Hm Hin) in Hun.
    discriminate.
  - intros tgt e. destruct (socketToRoom st !! sid) as [r|] eqn:Hs.
    + destruct (wf_room _ Hwf _ _ Hs) as (ms & Hm & Hin).
      rewrite (disconnect_mapped _ _ _ _ _ _ Hwf Hs Hm). cbn [snd].
      intros [H|H]%elem_of_app;
        apply list_elem_of_fmap in H as (peer & [= -> ->] & [Hne Hp]%elem_of_set_delete);
        exists peer; (split; [reflexivity|]); (split; [exact Hne|]);
        exists r, ms; auto.
    + unfold on_disconnect. rewrite leave_unmapped by assumption. simpl.
      intros H. inversion H.
Qed.

Lemma disconnect_purges_witness :
  socketToRoom (on_disconnect pairState 4 "b" "transport close").1 !! "b" = None
  ∧ ∀ r ms, rooms (on_disconnect pairState 4 "b" "transport close").1 !! r = Some ms
            → "b" ∉ ms.
Proof.
  destruct (disconnect_purges pairState 4 "b" "transport close" reachable_pairState)
    as (_ & H1 & H2 & _).
  split; assumption.
Defined.

(** X11. Connect then disconnect is a round trip: for a connection id
    the server does not know (no profile, no room), registering it and
    then disconnecting it gives back the state as it was, with nothing
    emitted. *)
Theorem connect_disconnect_round_trip
    (st : state) (t t' : Z) (sid reason : string) :
  profiles_get sid (userProfiles st) = None →
  socketToRoom st !! sid = None →
  (on_connection st t sid).2 = []
  ∧ on_disconnect (on_connection st t sid).1 t' sid reason = (st, []).
Proof.
  intros Hg Hs. split; [reflexivity|].
  unfold on_disconnect, on_connection. cbn [fst].
  rewrite leave_unmapped by exact Hs.
  unfold unregister, profiles_set. cbn [rooms socketToRoom userProfiles].
  rewrite Hg. unfold profiles_delete. rewrite filter_app.
  fold (profiles_delete sid (userProfiles st)).
  rewrite (profiles_delete_absent _ _ Hg).
  rewrite filter_cons_False by (simpl; tauto). rewrite filter_nil, app_nil_r.
  destruct st. reflexivity.
Qed.

Lemma connect_disconnect_round_trip_witness :
  on_disconnect (on_connection pairState 8 "c").1 9 "c" "transport close"
  = (pairState, []).
Proof.
  exact (proj2 (connect_disconnect_round_trip pairState 8 9 "c" "transport close"
                  eq_refl eq_refl)).
Defined.

(** ** Isolation between connections *)

Lemma relay_keeps_state (k : relay) (st : state) (now : Z) (sid : string) (msg : payload) :
  (on_relay k st now sid msg).1 = st.
Proof.
  destruct k; simpl;
    [unfold on_outgoing_call | unfold on_call_accepted
    | unfold on_ice_candidate | unfold on_call_ended];
    repeat match goal with
           | |- context [if ?b then _ else _] => destruct b
           | |- context [match ?v with VUndefined => _ | _ => _ end] => destruct v
           end; reflexivity.
Qed.

Lemma room_join_profiles_other (st : state) (now : Z) (sid x : string) (msg : payload) :
  x ≠ sid →
  profiles_get x (userProfiles (on_room_join st now sid msg).1)
  = profiles_get x (userProfiles st).
Proof.
  intros Hne. unfold on_room_join.
  destruct (field "roomId" msg) as [| | | |raw|]; try reflexivity.
  destruct (negb (truthy (VStr raw)) || _); [reflexivity|].
  destruct (roomIsFull st sid (toLowerCase (trim raw))); [reflexivity|].
  pose proof (leave_profiles st sid) as Hp.
  destruct (leaveCurrentRoom st sid) as [[st1 lefts] o]. simpl in Hp |- *.
  rewrite Hp. destruct (profiles_get sid (userProfiles st));
    [apply profiles_get_replace_ne, Hne | reflexivity].
Qed.

Lemma room_join_mapping_other (st : state) (now : Z) (sid x : string) (msg : payload) :
  wf st → x ≠ sid →
  socketToRoom (on_room_join st now sid msg).1 !! x = socketToRoom st !! x.
Proof.
  intros Hwf Hne.
  destruct (room_join_outcome st now sid msg Hwf) as [->|clean _ _ _ ->];
    [reflexivity|].
  rewrite lookup_insert_ne by congruence.
  apply leave_other_mapping; [exact Hwf | congruence].
Qed.

Lemma disconnect_other (st : state) (now : Z) (sid x reason : string) :
  wf st → x ≠ sid →
  socketToRoom (on_disconnect st now sid reason).1 !! x = socketToRoom st !! x
  ∧ profiles_get x (userProfiles (on_disconnect st now sid reason).1)
    = profiles_get x (userProfiles st).
Proof.
  intros Hwf Hne. unfold on_disconnect.
  pose proof (leave_other_mapping st sid x Hwf (not_eq_sym Hne)) as Hs.
  pose proof (leave_profiles st sid) as Hp.
  destruct (leaveCurrentRoom st sid) as [[st1 lefts] o]. simpl in *.
  split; [exact Hs|]. rewrite Hp. apply profiles_get_delete_ne. congruence.
Qed.

(** An input the server handles never moves another connection: after
    any input of connection [sid] whose callback runs (connect, join,
    signaling, ping, activity, disconnect), every other connection keeps
    its profile, its room mapping and its place in the member set of its
    room. *)
Lemma input_isolation (st : state) (now : Z) (i : input) (sid x : string) :
  reachable st → sender i = Some sid → x ≠ sid →
  profiles_get x (userProfiles (step st now i).1) = profiles_get x (userProfiles st)
  ∧ socketToRoom (step st now i).1 !! x = socketToRoom st !! x
  ∧ (∀ r ms, rooms st !! r = Some ms → x ∈ ms →
       ∃ ms', rooms (step st now i).1 !! r = Some ms' ∧ x ∈ ms').
Proof.
  intros Hr Hsender Hne. pose proof (reachable_wf _ Hr) as Hwf.
  assert (H : profiles_get x (userProfiles (step st now i).1)
              = profiles_get x (userProfiles st)
              ∧ socketToRoom (step st now i).1 !! x = socketToRoom st !! x).
  { destruct i; simpl in Hsender; try discriminate Hsender;
      injection Hsender as ->; simpl.
    - split; [apply profiles_get_set_ne, Hne | reflexivity].
    - split; [apply room_join_profiles_other, Hne
             | apply room_join_mapping_other; assumption].
    - rewrite (relay_keeps_state RelayOffer). split; reflexivity.
    - rewrite (relay_keeps_state RelayAnswer). split; reflexivity.
    - rewrite (relay_keeps_state RelayCandidate). split; reflexivity.
    - rewrite (relay_keeps_state RelayEnd). split; reflexivity.
    - split; [|reflexivity]. destruct (profiles_get sid (userProfiles st));
        [apply profiles_get_replace_ne, Hne | reflexivity].
    - split; [|reflexivity]. destruct (profiles_get sid (userProfiles st));
        [apply profiles_get_replace_ne, Hne | reflexivity].
    - destruct (disconnect_other st now sid x reason Hwf Hne). split; assumption. }
  destruct H as [Hp Hs]. split; [exact Hp|]. split; [exact Hs|].
  intros r ms Hm Hin. apply (wf_room _ (wf_step st now i Hwf)).
  rewrite Hs. eapply wf_member; eauto.
Qed.

(** ** Joining *)

(** X13. An accepted join is the implicit leave followed by a join from
    no room: for a valid room id that passes the capacity check,
    [room:join] gives the state and emits of [leaveCurrentRoom] followed by
    those of [room:join] run on the state after the leave, where it starts
    from a connection that is in no room. *)
Theorem join_is_leave_then_join
    (st : state) (now : Z) (sid : string) (msg : payload) (raw : string) :
  reachable st →
  field "roomId" msg = VStr raw → blank raw = false →
  roomIsFull st sid (cleanRoomId raw) = false →
  on_room_join st now sid msg =
    (let '(st1, lefts, _) := leaveCurrentRoom st sid in
     let '(st2, acts) := on_room_join st1 now sid msg in
     (st2, lefts ++ acts))
  ∧ socketToRoom (leaveCurrentRoom st sid).1.1 !! sid = None.
Proof.
  intros Hr Hf Hblank Hfull. pose proof (reachable_wf _ Hr) as Hwf.
  unfold cleanRoomId in Hfull.
  pose proof (wf_leave_unmaps st sid Hwf) as Hun.
  split; [|exact Hun].
  assert (Hspace : ∀ m, rooms (leaveCurrentRoom st sid).1.1 !! toLowerCase (trim raw)
                        = Some m → (length m ≤ 1)%nat).
  { intros m. apply leave_makes_space; assumption. }
  unfold on_room_join. rewrite Hf, valid_guard, Hblank, Hfull.
  destruct (leaveCurrentRoom st sid) as [[st1 lefts] o]. cbn [fst] in Hun, Hspace.
  assert (Hfull1 : roomIsFull st1 sid (toLowerCase (trim raw)) = false).
  { unfold roomIsFull. destruct (rooms st1 !! toLowerCase (trim raw)) as [m|] eqn:Hm;
      [|reflexivity].
    specialize (Hspace m eq_refl). apply andb_false_intro1, Nat.leb_gt. lia. }
  rewrite Hfull1, (leave_unmapped _ _ Hun). reflexivity.
Qed.

Lemma join_is_leave_then_join_witness :
  on_room_join threeState 6 "c" (joinMsg "New") =
    (let '(st1, lefts, _) := leaveCurrentRoom threeState "c" in
     let '(st2, acts) := on_room_join st1 6 "c" (joinMsg "New") in
     (st2, lefts ++ acts)).
Proof.
  exact (proj1 (join_is_leave_then_join threeState 6 "c" (joinMsg "New") "New"
                  reachable_threeState eq_refl eq_refl eq_refl)).
Defined.

(** X14. Pairing.  A connection that is in no room and joins a room that
    does not exist yet becomes its only member and is sent [room:joined]
    alone, with a user count of 1.  A connection that is in no room and
    joins a room with one member [peer] is sent [user:joined] naming
    [peer], then [peer] is sent [user:joined] naming the newcomer, then
    the newcomer is sent [room:joined]; the three carry the same room
    snapshot, which lists [peer] then the newcomer and a user count of
    2. *)
Theorem join_pairs_peers
    (st : state) (now : Z) (sid : string) (msg : payload) (raw : string) :
  reachable st →
  field "roomId" msg = VStr raw → blank raw = false →
  socketToRoom st !! sid = None →
  (rooms st !! cleanRoomId raw = None →
     ∃ st' us,
       on_room_join st now sid msg =
         (st', [Emit (ToSocket sid)
                  (EvRoomJoined (Some {| roomId := cleanRoomId raw;
                                         users := us; userCount := 1 |}))])
       ∧ us.*1 = [sid]
       ∧ rooms st' !! cleanRoomId raw = Some [sid]
       ∧ socketToRoom st' !! sid = Some (cleanRoomId raw))
  ∧ (∀ peer, rooms st !! cleanRoomId raw = Some [peer] →
     ∃ st' us,
       let info := Some {| roomId := cleanRoomId raw; users := us; userCount := 2 |} in
       on_room_join st now sid msg =
         (st', [Emit (ToSocket sid) (EvUserJoined peer (cleanRoomId raw) info);
                Emit (IoTo peer) (EvUserJoined sid (cleanRoomId raw) info);
                Emit (ToSocket sid) (EvRoomJoined info)])
       ∧ us.*1 = [peer; sid]
       ∧ rooms st' !! cleanRoomId raw = Some [peer; sid]
       ∧ socketToRoom st' !! sid = Some (cleanRoomId raw)).
Proof.
  intros Hr Hf Hblank Hs. pose proof (reachable_wf _ Hr) as Hwf.
  unfold cleanRoomId. split.
  - intros Hm. unfold on_room_join, roomIsFull, getRoomInfo.
    rewrite Hf, valid_guard, Hblank, Hm, (leave_unmapped _ _ Hs).
    cbn [rooms socketToRoom userProfiles]. rewrite !Hm. cbv beta iota.
    rewrite ?Hm, ?lookup_insert_eq.
    cbn [default from_option id]. unfold set_add.
    rewrite (proj2 (set_has_false sid [])) by (intros H; inversion H).
    cbn [app]. rewrite ?lookup_insert_eq.
    rewrite filter_cons_False by tauto. rewrite filter_nil.
    cbn [map app length].
    eexists _, _. split; [reflexivity|]. split; [reflexivity|].
    cbn [rooms socketToRoom]. rewrite !lookup_insert_eq. split; reflexivity.
  - intros peer Hm.
    assert (Hne : peer ≠ sid).
    { intros ->. apply (wf_unmapped_notin _ _ _ _ Hwf Hs Hm). now left. }
    unfold on_room_join, roomIsFull, getRoomInfo.
    rewrite Hf, valid_guard, Hblank, Hm, (leave_unmapped _ _ Hs).
    cbn [length Nat.leb andb].
    cbn [rooms socketToRoom userProfiles]. rewrite !Hm. cbv beta iota.
    rewrite ?Hm, ?lookup_insert_eq.
    cbn [default from_option id]. unfold set_add.
    rewrite (proj2 (set_has_false sid [peer]))
      by (intros ->%list_elem_of_singleton; congruence).
    cbn [app]. rewrite ?lookup_insert_eq.
    rewrite filter_cons_True by assumption.
    rewrite filter_cons_False by tauto. rewrite filter_nil.
    cbn [map app length].
    eexists _, _. split; [reflexivity|]. split; [reflexivity|].
    cbn [rooms socketToRoom]. rewrite !lookup_insert_eq. split; reflexivity.
Qed.

Lemma join_pairs_peers_witness :
  ∃ st' us,
    let info := Some {| roomId := cleanRoomId "DEMO "; users := us; userCount := 2 |} in
    on_room_join (on_connection soloState 3 "b").1 4 "b" (joinMsg "DEMO ") =
      (st', [Emit (ToSocket "b") (EvUserJoined "a" (cleanRoomId "DEMO ") info);
             Emit (IoTo "a") (EvUserJoined "b" (cleanRoomId "DEMO ") info);
             Emit (ToSocket "b") (EvRoomJoined info)])
    ∧ us.*1 = ["a"; "b"]
    ∧ rooms st' !! cleanRoomId "DEMO " = Some ["a"; "b"]
    ∧ socketToRoom st' !! "b" = Some (cleanRoomId "DEMO ").
Proof.
  assert (Hr : reachable (on_connection soloState 3 "b").1).
  { exists (soloTrace ++ [(3, Connection "b")]). reflexivity. }
  exact (proj2 (join_pairs_peers (on_connection soloState 3 "b").1 4 "b"
                  (joinMsg "DEMO ") "DEMO " Hr eq_refl eq_refl eq_refl)
           "a" eq_refl).
Defined.

(** ** Signaling router, all messages *)

Lemma sender_excluded (sid : string) (to : value) (e : event) :
  receives sid (Emit (SocketTo sid to) e) = false.
Proof.
  destruct to; try reflexivity. simpl.
  rewrite (bool_decide_eq_true_2 (sid = sid)) by reflexivity. apply andb_false_r.
Qed.

(** The bodies of the four relaying handlers never change the tables:
    whatever the message object, each returns the state as it was and
    emits at most one event, which is either an error for the sender or a
    relay addressed, with [socket.to], to the value of the message's
    [to]. *)
Lemma signaling_is_stateless
    (k : relay) (st : state) (now : Z) (sid : string) (msg : payload) :
  (on_relay k st now sid msg).1 = st
  ∧ (length (on_relay k st now sid msg).2 ≤ 1)%nat
  ∧ (∀ tgt e, Emit tgt e ∈ (on_relay k st now sid msg).2 →
       (tgt = ToSocket sid ∧ ∃ m, e = EvError m)
       ∨ (tgt = SocketTo sid (field "to" msg) ∧ relayedFrom e = Some sid)).
Proof.
  split; [apply relay_keeps_state|].
  destruct k; simpl;
    [unfold on_outgoing_call | unfold on_call_accepted
    | unfold on_ice_candidate | unfold on_call_ended];
    repeat match goal with
           | |- context [if ?b then _ else _] => destruct b
           end;
    destruct (field "to" msg) eqn:Hto; simpl; try rewrite Hto;
    repeat match goal with
           | |- context [if ?b then _ else _] => destruct b
           end; simpl;
    (split; [lia|]); intros tgt e Hin;
    repeat (apply elem_of_cons in Hin as [Hin|Hin];
            [injection Hin as -> ->;
             first [left; split; [reflexivity | eexists; reflexivity]
                   | right; split; reflexivity]|]);
    inversion Hin.
Qed.

(** X16. An offer never leaves the room: whatever the message, if
    [outgoing:call] emits an [incoming:call] then its destination is a
    connection id, the sender and that connection are members of the same
    room, and the event carries the sender's id and the offer of the
    message. *)
Theorem offer_stays_in_room
    (st : state) (now : Z) (sid : string) (msg : payload)
    (tgt : target) (from : string) (offer : value) (ts : Z) :
  reachable st →
  Emit tgt (EvIncomingCall from offer ts) ∈ (on_outgoing_call st now sid msg).2 →
  ∃ to, field "to" msg = VStr to
        ∧ sameRoom st sid to
        ∧ tgt = SocketTo sid (VStr to)
        ∧ from = sid ∧ offer = field "offer" msg ∧ ts = now
        ∧ truthy offer = true.
Proof.
  intros Hr. pose proof (reachable_wf _ Hr) as Hwf. unfold on_outgoing_call.
  destruct (truthy (field "to" msg)) eqn:Hto; simpl;
    [|intros [H|H]%elem_of_cons; [discriminate H | inversion H]].
  destruct (truthy (field "offer" msg)) eqn:Hoffer; simpl;
    [|intros [H|H]%elem_of_cons; [discriminate H | inversion H]].
  destruct (socketToRoom st !! sid) as [r|] eqn:Hs; simpl;
    [|intros [H|H]%elem_of_cons; [discriminate H | inversion H]].
  destruct (String.eqb r EmptyString) eqn:Hr0; simpl;
    [intros [H|H]%elem_of_cons; [discriminate H | inversion H]|].
  destruct (bool_decide (roomOf st (field "to" msg) = Some r)) eqn:Hb; simpl;
    [|intros [H|H]%elem_of_cons; [discriminate H | inversion H]].
  apply bool_decide_eq_true in Hb.
  destruct (field "to" msg) as [| | | |to|] eqn:Hfield; try discriminate Hb.
  intros [H|H]%elem_of_cons; [|inversion H].
  injection H as -> -> -> ->. exists to. split; [reflexivity|].
  split; [apply wf_sameRoom; eauto|]. repeat split. exact Hoffer.
Qed.

Lemma offer_stays_in_room_witness :
  ∃ to, field "to" (offerMsg "b") = VStr to ∧ sameRoom pairState "a" to
        ∧ SocketTo "a" (VStr "b") = SocketTo "a" (VStr to)
        ∧ "a" = "a" ∧ VObj "sdp-offer" = field "offer" (offerMsg "b") ∧ 7 = 7
        ∧ truthy (VObj "sdp-offer") = true.
Proof.
  apply (offer_stays_in_room pairState 7 "a" (offerMsg "b")
           (SocketTo "a" (VStr "b")) "a" (VObj "sdp-offer") 7 reachable_pairState).
  vm_compute. left.
Defined.

(** Validation of offers and answers, once the message is destructured.
    An [outgoing:call] whose [to]
    or [offer] is missing or falsy is answered with the InvalidCallParams
    error alone; so is a [call:accepted] whose [to] or [answer] is missing
    or falsy.  A [call:accepted] with an answer and a [to] that is truthy
    but not a string (a number, an object) fails inside the handler and
    is answered with the error of its catch clause.  A [call:accepted]
    with an answer and a non-empty string as [to] is relayed to that
    address in every state. *)
Lemma offer_answer_validation
    (st : state) (now : Z) (sid : string) (msg : payload) :
  (truthy (field "to" msg) = false ∨ truthy (field "offer" msg) = false →
     on_outgoing_call st now sid msg
     = (st, [Emit (ToSocket sid) (EvError "Invalid call parameters")]))
  ∧ (truthy (field "to" msg) = false ∨ truthy (field "answer" msg) = false →
     on_call_accepted st now sid msg
     = (st, [Emit (ToSocket sid) (EvError "Invalid answer parameters")]))
  ∧ (truthy (field "to" msg) = true → truthy (field "answer" msg) = true →
     (∀ to, field "to" msg ≠ VStr to) →
     on_call_accepted st now sid msg
     = (st, [Emit (ToSocket sid) (EvError "Failed to accept call")]))
  ∧ (∀ to, field "to" msg = VStr to → to ≠ EmptyString →
     truthy (field "answer" msg) = true →
     on_call_accepted st now sid msg
     = (st, [Emit (SocketTo sid (VStr to))
               (EvCallAccepted sid (field "answer" msg) now)])).
Proof.
  unfold on_outgoing_call, on_call_accepted. repeat split.
  - intros [-> | ->]; [reflexivity | rewrite orb_true_r; reflexivity].
  - intros [-> | ->]; [reflexivity | rewrite orb_true_r; reflexivity].
  - intros -> -> Hns. simpl.
    destruct (field "to" msg) as [| | | |to|]; try reflexivity.
    exfalso. apply (Hns to). reflexivity.
  - intros to -> Hne ->. simpl. rewrite (eqb_empty_false _ Hne). reflexivity.
Qed.

(** Candidates and end-of-call, once the message is destructured.  An
    [ice:candidate] with a candidate and a destination is relayed to that
    destination with the candidate as sent, in every state.  A
    [call:ended] is relayed exactly when its [to] is a non-empty string,
    and is dropped otherwise.  Neither handler ever sends anything,
    error included, back to the sender. *)
Lemma best_effort_relays
    (st : state) (now : Z) (sid : string) (msg : payload) :
  (truthy (field "candidate" msg) = true → truthy (field "to" msg) = true →
     on_ice_candidate st now sid msg
     = (st, [Emit (SocketTo sid (field "to" msg))
               (EvIceCandidate (field "candidate" msg) sid)]))
  ∧ (∀ to, field "to" msg = VStr to → to ≠ EmptyString →
     on_call_ended st now sid msg
     = (st, [Emit (SocketTo sid (VStr to)) (EvCallEnded sid now)]))
  ∧ ((∀ to, field "to" msg = VStr to → to = EmptyString) →
     on_call_ended st now sid msg = (st, []))
  ∧ inbox sid (on_ice_candidate st now sid msg).2 = []
  ∧ inbox sid (on_call_ended st now sid msg).2 = [].
Proof.
  unfold on_ice_candidate, on_call_ended. repeat split.
  - intros -> ->. reflexivity.
  - intros to -> Hne. simpl. rewrite (eqb_empty_false _ Hne). reflexivity.
  - intros Hempty. destruct (field "to" msg) as [| | | |to|]; try reflexivity.
    rewrite (Hempty to eq_refl). reflexivity.
  - destruct (negb _ || negb _); [reflexivity|]. unfold inbox. cbn [snd].
    rewrite filter_cons_False; [reflexivity|].
    rewrite sender_excluded. discriminate.
  - destruct (field "to" msg) as [| | | |to|]; try reflexivity.
    destruct (truthy (VStr to)); [|reflexivity]. unfold inbox. cbn [snd].
    rewrite filter_cons_False; [reflexivity|].
    rewrite sender_excluded. discriminate.
Qed.

(** ** Who is notified, and with what *)

Lemma leave_emits_to_roommates (st : state) (sid : string) (tgt : target) (e : event) :
  wf st → Emit tgt e ∈ (leaveCurrentRoom st sid).1.2 →
  ∃ peer, tgt = IoTo peer ∧ peer ≠ sid ∧ sameRoom st sid peer.
Proof.
  intros Hwf. destruct (socketToRoom st !! sid) as [r|] eqn:Hs.
  - destruct (wf_room _ Hwf _ _ Hs) as (ms & Hm & Hin).
    rewrite (leave_mapped _ _ _ _ (wf_key _ Hwf _ _ Hm) Hs Hm). cbn [fst snd].
    intros (peer & [= -> ->] & [Hne Hp]%elem_of_set_delete)%list_elem_of_fmap.
    exists peer. split; [reflexivity|]. split; [exact Hne|]. exists r, ms. auto.
  - rewrite leave_unmapped by assumption. simpl. intros H. inversion H.
Qed.

(** X19. A join notifies room-mates only: every emit of [room:join] is
    addressed either to the joining connection or to another connection
    that shared its previous room or shares its room after the join. *)
Theorem join_notifies_roommates_only
    (st : state) (now : Z) (sid : string) (msg : payload) (tgt : target) (e : event) :
  reachable st →
  Emit tgt e ∈ (on_room_join st now sid msg).2 →
  tgt = ToSocket sid
  ∨ ∃ peer, tgt = IoTo peer ∧ peer ≠ sid
            ∧ (sameRoom st sid peer
               ∨ sameRoom (on_room_join st now sid msg).1 sid peer).
Proof.
  intros Hr. pose proof (reachable_wf _ Hr) as Hwf.
  pose proof (leave_emits_to_roommates st sid) as Hleft.
  unfold on_room_join.
  destruct (field "roomId" msg) as [| | | |raw|];
    try (intros [[= -> _]|H]%elem_of_cons; [now left | inversion H]).
  destruct (negb (truthy (VStr raw)) || _);
    [intros [[= -> _]|H]%elem_of_cons; [now left | inversion H]|].
  destruct (roomIsFull st sid (toLowerCase (trim raw)));
    [intros [[= -> _]|H]%elem_of_cons; [now left | inversion H]|].
  destruct (leaveCurrentRoom st sid) as [[st1 lefts] o]. cbn [fst snd] in Hleft |- *.
  set (clean := toLowerCase (trim raw)).
  set (rooms1 := match rooms st1 !! clean with
                 | Some _ => rooms st1
                 | None => <[clean := []]> (rooms st1)
                 end).
  set (room := set_add sid (default [] (rooms1 !! clean))).
  intros [Hin|[Hin|Hin]%elem_of_app]%elem_of_app.
  - right. destruct (Hleft tgt e Hwf Hin) as (peer & -> & Hne & Hsame).
    exists peer. auto.
  - destruct (filter (λ id, id ≠ sid) room) as [|first others] eqn:Hothers;
      [inversion Hin|].
    apply elem_of_cons in Hin as [[= -> _]|Hin]; [now left|].
    apply list_elem_of_fmap in Hin as (peer & [= -> _] & Hpeer).
    rewrite <- Hothers in Hpeer.
    apply (list_elem_of_filter (λ id, id ≠ sid)) in Hpeer as [Hne Hpeer].
    right. exists peer. split; [reflexivity|]. split; [exact Hne|]. right.
    exists clean, room. cbn [rooms]. rewrite lookup_insert_eq.
    split; [reflexivity|]. split; [|exact Hpeer].
    apply elem_of_set_add. now left.
  - apply list_elem_of_singleton in Hin as [= -> _]. now left.
Qed.

Lemma join_notifies_roommates_only_witness :
  IoTo "a" = ToSocket "b"
  ∨ ∃ peer, IoTo "a" = IoTo peer ∧ peer ≠ "b"
            ∧ (sameRoom pairState "b" peer
               ∨ sameRoom (on_room_join pairState 4 "b" (joinMsg "other")).1 "b" peer).
Proof.
  apply (join_notifies_roommates_only pairState 4 "b" (joinMsg "other")
           (IoTo "a") (EvUserLeft "b" "demo" 1) reachable_pairState).
  vm_compute. left.
Defined.

(** X20. The room snapshot is accurate: in a reachable state
    [getRoomInfo] is null exactly for a room nobody is mapped to;
    otherwise it carries the room id, lists exactly the connections
    mapped to the room, each with the profile the server tracks for it,
    and a user count that is the number of users listed, 1 or 2. *)
Theorem room_info_accurate (st : state) (r : string) :
  reachable st →
  (getRoomInfo st r = None ↔ ∀ sid, socketToRoom st !! sid ≠ Some r)
  ∧ (∀ info, getRoomInfo st r = Some info →
       roomId info = r
       ∧ userCount info = length (users info)
       ∧ (1 ≤ userCount info ≤ 2)%nat
       ∧ (∀ sid, sid ∈ (users info).*1 ↔ socketToRoom st !! sid = Some r)
       ∧ (∀ sid p, (sid, p) ∈ users info → p = profiles_get sid (userProfiles st))).
Proof.
  intros Hr. pose proof (reachable_wf _ Hr) as Hwf. unfold getRoomInfo. split.
  - destruct (rooms st !! r) as [ms|] eqn:Hm.
    + split; [discriminate|]. intros Hnone. exfalso.
      pose proof (wf_nonempty _ Hwf _ _ Hm) as Hne.
      destruct ms as [|x ms]; [congruence|].
      apply (Hnone x). eapply wf_member; [exact Hwf | exact Hm | now left].
    + split; [|reflexivity]. intros _ sid Hs.
      destruct (wf_room _ Hwf _ _ Hs) as (ms & Hm' & _). congruence.
  - intros info. destruct (rooms st !! r) as [ms|] eqn:Hm; [|discriminate].
    intros [= <-]. cbn [roomId users userCount].
    split; [reflexivity|]. split; [rewrite length_map; reflexivity|].
    split.
    + pose proof (wf_capacity _ Hwf _ _ Hm).
      pose proof (wf_nonempty _ Hwf _ _ Hm).
      destruct ms; [congruence | simpl in *; lia].
    + split.
      * intros sid. rewrite <- list_fmap_compose.
        replace (fst ∘ (λ sid0, (sid0, profiles_get sid0 (userProfiles st))))
          with (@id string) by reflexivity.
        rewrite list_fmap_id. split; [eapply wf_member; eauto|].
        intros Hs. destruct (wf_room _ Hwf _ _ Hs) as (ms' & Hm' & Hin). congruence.
      * intros sid p (x & [= -> ->] & _)%list_elem_of_fmap. reflexivity.
Qed.

Lemma room_info_accurate_witness :
  getRoomInfo pairState "other" = None
  ↔ ∀ sid, socketToRoom pairState !! sid ≠ Some "other".
Proof. exact (proj1 (room_info_accurate pairState "other" reachable_pairState)). Defined.

(** ** Connections without a profile *)

(** X21. A connection the server holds no profile for (it was evicted by
    the reaper but is still connected) is invisible to activity tracking:
    its pings are answered with a pong and its activity reports are
    accepted, both without any change of state; a join does not give it a
    profile; and no sweep, at any instant, evicts it from its room. *)
Theorem untracked_connection
    (st : state) (t : Z) (sid : string) (data : value) (msg : payload) :
  reachable st →
  profiles_get sid (userProfiles st) = None →
  on_ping st t sid = (st, [Emit (ToSocket sid) EvPong])
  ∧ on_user_activity st t sid data = (st, [])
  ∧ profiles_get sid (userProfiles (on_room_join st t sid msg).1) = None
  ∧ (∀ now, socketToRoom (cleanupInterval st now).1 !! sid = socketToRoom st !! sid).
Proof.
  intros Hr Hg. pose proof (reachable_wf _ Hr) as Hwf.
  split; [|split; [|split]].
  - unfold on_ping. rewrite Hg. destruct st. reflexivity.
  - unfold on_user_activity. rewrite Hg. destruct st. reflexivity.
  - unfold on_room_join.
    destruct (field "roomId" msg) as [| | | |raw|]; try exact Hg.
    destruct (negb (truthy (VStr raw)) || _); [exact Hg|].
    destruct (roomIsFull st sid (toLowerCase (trim raw))); [exact Hg|].
    pose proof (leave_profiles st sid) as Hp.
    destruct (leaveCurrentRoom st sid) as [[st1 lefts] o]. simpl in Hp |- *.
    rewrite Hp, Hg. exact Hg.
  - intros now. apply sweep_spares; [exact Hwf|].
    intros (p & Hin & _). apply profiles_get_None_keys in Hg. apply Hg.
    apply list_elem_of_fmap. exists (sid, p). auto.
Qed.

Lemma untracked_connection_witness :
  socketToRoom (cleanupInterval (on_room_join (cleanupInterval idleState 1800003).1
                                   1800004 "a" (joinMsg "demo")).1 99000000).1 !! "a"
  = socketToRoom (on_room_join (cleanupInterval idleState 1800003).1
                    1800004 "a" (joinMsg "demo")).1 !! "a".
Proof.
  assert (Hr : reachable (on_room_join (cleanupInterval idleState 1800003).1
                            1800004 "a" (joinMsg "demo")).1).
  { exists (idleTrace ++ [(1800003, Cleanup); (1800004, RoomJoin "a" (joinMsg "demo"))]).
    reflexivity. }
  exact (proj2 (proj2 (proj2 (untracked_connection _ 0 "a" VNull ∅ Hr eq_refl)))
           99000000).
Defined.

(** * Requests without a payload *)

Lemma serve_payload (st : state) (now : Z) (r : request) (i : input) :
  destructure r = Some i → serve st now r = Handled (step st now i).1 (step st now i).2.
Proof. intros H. unfold serve. rewrite H. destruct (step st now i). reflexivity. Qed.

Lemma serve_exit (st : state) (now : Z) (r : request) :
  serve st now r = ProcessExit ↔ destructure r = None.
Proof.
  unfold serve. destruct (destructure r) as [i|]; [|tauto].
  destruct (step st now i). split; discriminate.
Qed.

(** C8. The code at the input that separates it from the claim: an
    [ice:candidate] event sent with no payload, or with [null], has its
    candidate and its destination absent; the callback throws while it
    destructures its parameter, outside the [try], and the process exits.
    With the same fields absent from an object payload the callback
    returns, with the state as it was and nothing emitted. *)
Theorem ice_candidate_without_payload_exits :
  serve pairState 7 (ReqIceCandidate "a" NoPayload) = ProcessExit
  ∧ serve pairState 7 (ReqIceCandidate "a" (Payload ∅)) = Handled pairState []
  ∧ serve pairState 7 (ReqIceCandidate "a" (Payload {[ "candidate" := VNull;
                                                       "to" := VStr "b" ]}))
    = Handled pairState [].
Proof. repeat split; reflexivity. Qed.

(** X1. A [room:join] request is answered with the InvalidRoom error
    alone, the state left as it was, exactly when it carries a message
    whose [roomId] is not a string (absent, null, a number, an object) or
    is a string made of white space only, the empty string included; and
    it makes the process exit exactly when it carries no message at all
    (no payload, or null). *)
Theorem room_join_request_invalid_id
    (st : state) (now : Z) (sid : string) (arg : argument) :
  (serve st now (ReqRoomJoin sid arg) = Handled st [invalidRoom sid]
   ↔ ∃ msg, arg = Payload msg
            ∧ ∀ raw, field "roomId" msg = VStr raw → blank raw = true)
  ∧ (serve st now (ReqRoomJoin sid arg) = ProcessExit ↔ arg = NoPayload).
Proof.
  split.
  - destruct arg as [|msg]; [split; [discriminate | intros (m & H & _); discriminate H]|].
    rewrite (serve_payload st now (ReqRoomJoin sid (Payload msg))
               (RoomJoin sid msg) eq_refl). cbn [step].
    pose proof (room_join_invalid_id st now sid msg) as Hbody. split.
    + intros [= H1 H2]. exists msg. split; [reflexivity|]. apply Hbody.
      destruct (on_room_join st now sid msg). simpl in *. congruence.
    + intros (m & [= <-] & H). apply Hbody in H. rewrite H. reflexivity.
  - rewrite serve_exit. destruct arg; simpl; split; congruence.
Qed.

Lemma room_join_request_invalid_id_witness :
  (serve pairState 9 (ReqRoomJoin "c" (Payload (joinMsg "  ")))
   = Handled pairState [invalidRoom "c"]
   ↔ ∃ msg, Payload (joinMsg "  ") = Payload msg
            ∧ ∀ raw, field "roomId" msg = VStr raw → blank raw = true)
  ∧ (serve pairState 9 (ReqRoomJoin "c" NoPayload) = ProcessExit
     ↔ NoPayload = NoPayload).
Proof.
  split.
  - exact (proj1 (room_join_request_invalid_id pairState 9 "c"
                    (Payload (joinMsg "  ")))).
  - exact (proj2 (room_join_request_invalid_id pairState 9 "c" NoPayload)).
Defined.

(** X12. What one connection sends never moves another, short of
    stopping the server: a request of connection [sid] either carries no
    payload where the callback destructures one, and the process exits,
    or is handled, and then every other connection keeps its profile, its
    room mapping and its place in the member set of its room. *)
Theorem request_isolation
    (st : state) (now : Z) (r : request) (sid x : string) :
  reachable st → requestSender r = Some sid → x ≠ sid →
  (serve st now r = ProcessExit ↔
     ∃ s, r = ReqRoomJoin s NoPayload ∨ r = ReqOutgoingCall s NoPayload
          ∨ r = ReqCallAccepted s NoPayload ∨ r = ReqIceCandidate s NoPayload
          ∨ r = ReqCallEnded s NoPayload)
  ∧ (∀ st' acts, serve st now r = Handled st' acts →
       profiles_get x (userProfiles st') = profiles_get x (userProfiles st)
       ∧ socketToRoom st' !! x = socketToRoom st !! x
       ∧ (∀ room ms, rooms st !! room = Some ms → x ∈ ms →
            ∃ ms', rooms st' !! room = Some ms' ∧ x ∈ ms')).
Proof.
  intros Hr Hsender Hne. split.
  - rewrite serve_exit. split.
    + destruct r as [s|s [|m]|s [|m]|s [|m]|s [|m]|s [|m]|s|s d|s d|];
        simpl; try discriminate; intros _; exists s; tauto.
    + intros (s & [->|[->|[->|[->| ->]]]]); reflexivity.
  - intros st' acts Hserve. unfold serve in Hserve.
    destruct (destructure r) as [i|] eqn:Hd; [|discriminate].
    assert (Hsi : sender i = Some sid).
    { destruct r as [s|s [|m]|s [|m]|s [|m]|s [|m]|s [|m]|s|s d|s d|];
        simpl in Hd, Hsender; try discriminate; injection Hd as <-; exact Hsender. }
    pose proof (input_isolation st now i sid x Hr Hsi Hne) as H.
    destruct (step st now i) as [st1 acts1]. injection Hserve as <- <-. exact H.
Qed.

Lemma request_isolation_witness :
  (serve pairState 4 (ReqCallEnded "b" NoPayload) = ProcessExit ↔
     ∃ s, ReqCallEnded "b" NoPayload = ReqRoomJoin s NoPayload
          ∨ ReqCallEnded "b" NoPayload = ReqOutgoingCall s NoPayload
          ∨ ReqCallEnded "b" NoPayload = ReqCallAccepted s NoPayload
          ∨ ReqCallEnded "b" NoPayload = ReqIceCandidate s NoPayload
          ∨ ReqCallEnded "b" NoPayload = ReqCallEnded s NoPayload)
  ∧ socketToRoom (step pairState 4 (Disconnect "b" "transport close")).1 !! "a"
    = socketToRoom pairState !! "a".
Proof.
  split.
  - exact (proj1 (request_isolation pairState 4 (ReqCallEnded "b" NoPayload) "b" "a"
                    reachable_pairState eq_refl ltac:(discriminate))).
  - destruct (proj2 (request_isolation pairState 4
                       (ReqDisconnect "b" "transport close") "b" "a"
                       reachable_pairState eq_refl ltac:(discriminate))
                (step pairState 4 (Disconnect "b" "transport close")).1
                (step pairState 4 (Disconnect "b" "transport close")).2
                eq_refl) as (_ & H & _).
    exact H.
Defined.

(** X15. A signaling request either stops the server or leaves the
    tables alone: each of the four signaling events makes the process
    exit when it is sent without a payload (or with null); sent with a
    message, it is handled with the state as it was and at most one emit,
    which is either an error for the sender or a relay addressed, with
    [socket.to], to the value of the message's [to]. *)
Theorem signaling_request_outcomes
    (k : relay) (st : state) (now : Z) (sid : string) :
  serve st now (relayRequest k sid NoPayload) = ProcessExit
  ∧ ∀ msg, ∃ acts,
      serve st now (relayRequest k sid (Payload msg)) = Handled st acts
      ∧ (length acts ≤ 1)%nat
      ∧ ∀ tgt e, Emit tgt e ∈ acts →
          (tgt = ToSocket sid ∧ ∃ m, e = EvError m)
          ∨ (tgt = SocketTo sid (field "to" msg) ∧ relayedFrom e = Some sid).
Proof.
  split; [destruct k; reflexivity|].
  intros msg. exists (on_relay k st now sid msg).2.
  destruct (signaling_is_stateless k st now sid msg) as (Hst & Hlen & Hemits).
  split; [|split; assumption].
  destruct k; unfold serve; simpl; simpl in Hst;
    match goal with |- context [let '(_, _) := ?x in _] =>
      destruct x as [st1 acts1] end; simpl in *; subst; reflexivity.
Qed.

(** X17. Validation of offers and answers.  An [outgoing:call] or a
    [call:accepted] sent without a payload (or with null) makes the
    process exit.  Sent with a message: an [outgoing:call] whose [to] or
    [offer] is missing or falsy is answered with the InvalidCallParams
    error alone; so is a [call:accepted] whose [to] or [answer] is missing
    or falsy; a [call:accepted] with an answer and a [to] that is truthy
    but not a string fails inside the [try] and is answered with the error
    of the catch clause; a [call:accepted] with an answer and a non-empty
    string as [to] is relayed to that address in every state. *)
Theorem offer_answer_request_validation
    (st : state) (now : Z) (sid : string) :
  serve st now (ReqOutgoingCall sid NoPayload) = ProcessExit
  ∧ serve st now (ReqCallAccepted sid NoPayload) = ProcessExit
  ∧ ∀ msg,
      (truthy (field "to" msg) = false ∨ truthy (field "offer" msg) = false →
         serve st now (ReqOutgoingCall sid (Payload msg))
         = Handled st [Emit (ToSocket sid) (EvError "Invalid call parameters")])
      ∧ (truthy (field "to" msg) = false ∨ truthy (field "answer" msg) = false →
         serve st now (ReqCallAccepted sid (Payload msg))
         = Handled st [Emit (ToSocket sid) (EvError "Invalid answer parameters")])
      ∧ (truthy (field "to" msg) = true → truthy (field "answer" msg) = true →
         (∀ to, field "to" msg ≠ VStr to) →
         serve st now (ReqCallAccepted sid (Payload msg))
         = Handled st [Emit (ToSocket sid) (EvError "Failed to accept call")])
      ∧ (∀ to, field "to" msg = VStr to → to ≠ EmptyString →
         truthy (field "answer" msg) = true →
         serve st now (ReqCallAccepted sid (Payload msg))
         = Handled st [Emit (SocketTo sid (VStr to))
                         (EvCallAccepted sid (field "answer" msg) now)]).
Proof.
  split; [reflexivity|]. split; [reflexivity|]. intros msg.
  destruct (offer_answer_validation st now sid msg) as (H1 & H2 & H3 & H4).
  unfold serve. simpl. repeat split.
  - intros H. rewrite (H1 H). reflexivity.
  - intros H. rewrite (H2 H). reflexivity.
  - intros Ha Hb Hc. rewrite (H3 Ha Hb Hc). reflexivity.
  - intros to Ha Hb Hc. rewrite (H4 to Ha Hb Hc). reflexivity.
Qed.

Lemma offer_answer_request_validation_witness :
  serve pairState 7 (ReqOutgoingCall "a" (Payload {[ "to" := VStr "b" ]}))
    = Handled pairState [Emit (ToSocket "a") (EvError "Invalid call parameters")]
  ∧ serve pairState 7
      (ReqCallAccepted "a" (Payload {[ "to" := VNum 5; "answer" := VObj "sdp-answer" ]}))
    = Handled pairState [Emit (ToSocket "a") (EvError "Failed to accept call")].
Proof.
  pose proof (proj2 (proj2 (offer_answer_request_validation pairState 7 "a"))) as H.
  split.
  - apply (proj1 (H {[ "to" := VStr "b" ]})). right. reflexivity.
  - apply (proj1 (proj2 (proj2 (H {[ "to" := VNum 5; "answer" := VObj "sdp-answer" ]}))));
      [reflexivity | reflexivity | intros to Hto; discriminate Hto].
Defined.

(** X18. Candidates and end-of-call are relayed best-effort.  An
    [ice:candidate] or a [call:ended] sent without a payload (or with
    null) makes the process exit.  Sent with a message: an [ice:candidate]
    with a candidate and a destination is relayed to that destination with
    the candidate as sent, in every state; a [call:ended] is relayed when
    its [to] is a non-empty string and dropped otherwise; and whatever
    either emits is addressed with [socket.to], which leaves the sender
    out, so that no error ever goes back to the sender. *)
Theorem best_effort_relay_requests
    (st : state) (now : Z) (sid : string) :
  serve st now (ReqIceCandidate sid NoPayload) = ProcessExit
  ∧ serve st now (ReqCallEnded sid NoPayload) = ProcessExit
  ∧ ∀ msg,
      (truthy (field "candidate" msg) = true → truthy (field "to" msg) = true →
         serve st now (ReqIceCandidate sid (Payload msg))
         = Handled st [Emit (SocketTo sid (field "to" msg))
                         (EvIceCandidate (field "candidate" msg) sid)])
      ∧ (∀ to, field "to" msg = VStr to → to ≠ EmptyString →
         serve st now (ReqCallEnded sid (Payload msg))
         = Handled st [Emit (SocketTo sid (VStr to)) (EvCallEnded sid now)])
      ∧ ((∀ to, field "to" msg = VStr to → to = EmptyString) →
         serve st now (ReqCallEnded sid (Payload msg)) = Handled st [])
      ∧ (∀ tgt e,
           Emit tgt e ∈ (on_ice_candidate st now sid msg).2
           ∨ Emit tgt e ∈ (on_call_ended st now sid msg).2 →
           tgt = SocketTo sid (field "to" msg)).
Proof.
  split; [reflexivity|]. split; [reflexivity|]. intros msg.
  destruct (best_effort_relays st now sid msg) as (H1 & H2 & H3 & _).
  unfold serve. simpl. repeat split.
  - intros Ha Hb. rewrite (H1 Ha Hb). reflexivity.
  - intros to Ha Hb. rewrite (H2 to Ha Hb). reflexivity.
  - intros H. rewrite (H3 H). reflexivity.
  - intros tgt e [Hin|Hin].
    + destruct (proj2 (proj2 (signaling_is_stateless RelayCandidate st now sid msg))
                  tgt e Hin) as [[-> [m ->]]|[-> _]]; [|reflexivity].
      exfalso. revert Hin. unfold on_relay, on_ice_candidate.
      destruct (negb _ || negb _); simpl;
        [intros H; inversion H
        | intros [H|H]%elem_of_cons; [discriminate H | inversion H]].
    + destruct (proj2 (proj2 (signaling_is_stateless RelayEnd st now sid msg))
                  tgt e Hin) as [[-> [m ->]]|[-> _]]; [|reflexivity].
      exfalso. revert Hin. unfold on_relay, on_call_ended.
      destruct (field "to" msg); simpl; try (intros H; inversion H; fail).
      destruct (negb _); simpl;
        [intros [H|H]%elem_of_cons; [discriminate H | inversion H]
        | intros H; inversion H].
Qed.

Lemma best_effort_relay_requests_witness :
  serve apartState 7 (ReqCallEnded "a" (Payload {[ "to" := VStr "b" ]}))
    = Handled apartState [Emit (SocketTo "a" (VStr "b")) (EvCallEnded "a" 7)]
  ∧ serve apartState 7 (ReqCallEnded "a" (Payload ∅)) = Handled apartState [].
Proof.
  pose proof (proj2 (proj2 (best_effort_relay_requests apartState 7 "a"))) as H.
  split.
  - apply (proj1 (proj2 (H {[ "to" := VStr "b" ]})) "b"); [reflexivity | discriminate].
  - apply (proj1 (proj2 (proj2 (H ∅)))). intros to Hto. discriminate Hto.
Defined.

Lemma signaling_request_outcomes_witness :
  serve apartState 7 (relayRequest RelayAnswer "a" NoPayload) = ProcessExit
  ∧ ∃ acts,
      serve apartState 7 (relayRequest RelayAnswer "a" (Payload (answerMsg "b")))
      = Handled apartState acts
      ∧ (length acts ≤ 1)%nat
      ∧ ∀ tgt e, Emit tgt e ∈ acts →
          (tgt = ToSocket "a" ∧ ∃ m, e = EvError m)
          ∨ (tgt = SocketTo "a" (field "to" (answerMsg "b"))
             ∧ relayedFrom e = Some "a").
Proof.
  exact (conj (proj1 (signaling_request_outcomes RelayAnswer apartState 7 "a"))
              (proj2 (signaling_request_outcomes RelayAnswer apartState 7 "a")
                 (answerMsg "b"))).
Defined.

(** * What a sweep leaves of the profile table *)

(** The profile table through the iterations of the sweep: each stale
    entry deletes its key. *)
Lemma fold_reap_profiles (now : Z) (entries : list (string * profile))
    (acc : state * list action) :
  userProfiles (fold_left (reap now) entries acc).1
  = fold_left (λ ps e, if isStale now e.2 then profiles_delete e.1 ps else ps)
      entries (userProfiles acc.1).
Proof.
  revert acc. induction entries as [|[q pq] entries IH]; intros [st acts];
    [reflexivity|].
  cbn [fold_left]. rewrite IH. f_equal. cbn [fst snd].
  destruct (isStale now pq) eqn:Hq.
  - rewrite reap_stale by assumption. cbn [fst]. rewrite leave_profiles. reflexivity.
  - rewrite reap_fresh by assumption. reflexivity.
Qed.

Lemma fold_delete_nil (now : Z) (entries : list (string * profile)) :
  fold_left (λ ps e, if isStale now e.2 then profiles_delete e.1 ps else ps)
    entries [] = [].
Proof.
  induction entries as [|[q pq] entries IH]; [reflexivity|].
  cbn [fold_left]. destruct (isStale now (q, pq).2); exact IH.
Qed.

Lemma fold_delete_cons (now : Z) (entries : list (string * profile))
    (x : string * profile) (ps : list (string * profile)) :
  fold_left (λ ps e, if isStale now e.2 then profiles_delete e.1 ps else ps)
    entries (x :: ps)
  = (if staleKey now entries x.1 then [] else [x])
    ++ fold_left (λ ps e, if isStale now e.2 then profiles_delete e.1 ps else ps)
         entries ps.
Proof.
  revert ps. induction entries as [|[q pq] entries IH]; intros ps; [reflexivity|].
  cbn [fold_left staleKey existsb fst snd].
  destruct (isStale now pq) eqn:Hq; cbn [andb orb]; [|apply IH].
  assert (Hdel : profiles_delete q (x :: ps)
                 = if decide (x.1 ≠ q) then x :: profiles_delete q ps
                   else profiles_delete q ps).
  { unfold profiles_delete. rewrite filter_cons. reflexivity. }
  rewrite Hdel. destruct (decide (x.1 ≠ q)) as [Hne|Heq].
  - rewrite bool_decide_eq_false_2 by congruence. apply IH.
  - rewrite bool_decide_eq_true_2
      by (destruct (decide (q = x.1)) as [|Hn]; [assumption|];
          exfalso; apply Heq; intros E; apply Hn; symmetry; exact E).
    reflexivity.
Qed.

Lemma fold_delete_filter (now : Z) (entries ps : list (string * profile)) :
  fold_left (λ ps e, if isStale now e.2 then profiles_delete e.1 ps else ps)
    entries ps
  = filter (λ e, staleKey now entries e.1 = false) ps.
Proof.
  induction ps as [|x ps IH]; [apply fold_delete_nil|].
  rewrite fold_delete_cons, IH, filter_cons.
  destruct (staleKey now entries x.1);
    [rewrite decide_False by discriminate | rewrite decide_True by reflexivity];
    reflexivity.
Qed.

Lemma staleKey_unique (now : Z) (ps : list (string * profile)) (x : string * profile) :
  NoDup ps.*1 → x ∈ ps → staleKey now ps x.1 = isStale now x.2.
Proof.
  intros Hnd Hin. destruct x as [k p]. cbn [fst snd].
  pose proof (keysUnique_get k p ps Hnd Hin) as Hget.
  unfold staleKey. destruct (isStale now p) eqn:Hp.
  - apply existsb_exists. exists (k, p). split; [apply list_elem_of_In, Hin|].
    cbn [fst snd]. rewrite Hp, bool_decide_eq_true_2 by reflexivity. reflexivity.
  - apply not_true_is_false. intros ([k' p'] & Hin' & Hb)%existsb_exists.
    apply andb_prop in Hb as [Hs Hk]. apply bool_decide_eq_true in Hk.
    cbn [fst snd] in Hs, Hk. subst k'.
    apply list_elem_of_In in Hin'.
    rewrite (keysUnique_get k p' ps Hnd Hin') in Hget. congruence.
Qed.

Lemma filter_ext_elem {A : Type} (P Q : A → Prop)
    `{!∀ x, Decision (P x), !∀ x, Decision (Q x)} (l : list A) :
  (∀ x, x ∈ l → P x ↔ Q x) → filter P l = filter Q l.
Proof.
  induction l as [|a l IH]; intros Hext; [reflexivity|].
  rewrite !filter_cons.
  assert (Ha : P a ↔ Q a) by (apply Hext; now left).
  assert (Hl : filter P l = filter Q l)
    by (apply IH; intros x Hx; apply Hext; now right).
  destruct (decide (P a)), (decide (Q a)); rewrite Hl; tauto || reflexivity.
Qed.

(** X8. What a sweep leaves of the two indexes: in a reachable state the
    profile table after [cleanupInterval] is the table before it without
    its stale entries, the others kept in their order; and the room
    mapping of a connection is deleted when its profile is stale and is
    left as it was otherwise, a connection without a profile included. *)
Theorem sweep_keeps_fresh_profiles (st : state) (now : Z) :
  reachable st →
  userProfiles (cleanupInterval st now).1
  = filter (λ e, isStale now e.2 = false) (userProfiles st)
  ∧ ∀ sid,
      socketToRoom (cleanupInterval st now).1 !! sid
      = match profiles_get sid (userProfiles st) with
        | Some p => if isStale now p then None else socketToRoom st !! sid
        | None => socketToRoom st !! sid
        end.
Proof.
  intros Hr. pose proof (reachable_wf _ Hr) as Hwf.
  pose proof (reachable_keysUnique _ Hr) as Hk. split.
  - destruct (cleanup_projections st now) as [-> _].
    rewrite fold_reap_profiles, fold_delete_filter. cbn [fst].
    apply filter_ext_elem. intros x Hx.
    rewrite (staleKey_unique now _ x Hk Hx). reflexivity.
  - intros sid. destruct (profiles_get sid (userProfiles st)) as [p|] eqn:Hg.
    + destruct (isStale now p) eqn:Hp.
      * destruct (cleanup_projections st now) as [_ ->].
        apply (fold_reap_evicts now sid p (userProfiles st) (st, []) Hwf
                 (profiles_get_elem _ _ _ Hg) Hp).
      * apply sweep_spares; [exact Hwf|]. intros (q & Hin & Hq).
        rewrite (keysUnique_get _ _ _ Hk Hin) in Hg. congruence.
    + apply sweep_spares; [exact Hwf|]. intros (q & Hin & _).
      rewrite (keysUnique_get _ _ _ Hk Hin) in Hg. discriminate.
Qed.

Lemma sweep_keeps_fresh_profiles_witness :
  userProfiles (cleanupInterval idleState 1800003).1
  = filter (λ e, isStale 1800003 e.2 = false) (userProfiles idleState)
  ∧ ∀ sid,
      socketToRoom (cleanupInterval idleState 1800003).1 !! sid
      = match profiles_get sid (userProfiles idleState) with
        | Some p => if isStale 1800003 p then None else socketToRoom idleState !! sid
        | None => socketToRoom idleState !! sid
        end.
Proof. exact (sweep_keeps_fresh_profiles idleState 1800003 reachable_idleState). Defined.

(** * The canonical key beyond Latin-1 *)

Section CodePoints.

Local Open Scope N_scope.
















(** *** The handlers' strings are the code units below 256 *)







End CodePoints.







